(** * Scholarship advisory rule engine (SD23039_Lab3.py)

    A shallow embedding of the rule engine of [SD23039_Lab3.py]:
    [OPS], [SCHOLARSHIP_RULES], [evaluate_condition], [rule_matches] and
    [run_rules], together with the fragment of the Python runtime these
    functions rely on ([float], [len], [in], [dict.get], [all], [sorted]).

    Data model, following the annotations of the source:
    - a value of type [Any] is a [pyval] (what [json.loads] can produce);
    - [facts : Dict[str, Any]] is a [gmap string pyval];
    - [cond : List[Any]] is a [list pyval];
    - a rule is a record whose four fields are optional, because the engine
      reads every one of them with [.get(key, default)]; its priority, when
      present, is an integer and its conditions, when present, form a list
      of lists (the annotation of [display_simple_conditions]);
    - an action is a [Dict[str, Any]], a [gmap string pyval];
    - a Python float is a binary64 number, a [spec_float] at precision 53;
    - a string given to [float] is read as ASCII text; the statements that
      depend on whether a string is a number are about such strings
      ([ascii_text]);
    - a call that can raise returns a [result].

    The engine is embedded a second time on a store of objects
    ([run_rules_at]), where the fact set, the rule set, the rules, their
    conditions and their actions have addresses and may be shared, and
    related to [run_rules]: this is where the absence of side effects is
    stated. *)

From Stdlib Require Import ZArith List String Ascii Bool Lia.
From Stdlib Require Import Floats.SpecFloat.
From stdpp Require Import gmap strings list fin_maps sorting.

Local Open Scope Z_scope.

(** ** The Python runtime fragment *)

Module Py.

(** Values of type [Any]. A [PFloat] carries a double in the normal form
    that [float] produces ([valid_binary] at precision 53). *)
#[local] Set Warnings "-register-all".
Inductive pyval :=
  | PNone
  | PBool (b : bool)
  | PInt (z : Z)
  | PFloat (f : spec_float)
  | PStr (s : string)
  | PList (l : list pyval)
  | PDict (d : list (string * pyval)).

(** The exceptions the engine can meet; all are subclasses of [Exception]. *)
Inductive exn := TypeError | ValueError | OverflowError | KeyError | IndexError.

Inductive result (A : Type) :=
  | Ok (a : A)
  | Raise (e : exn).
Arguments Ok {A} a.
Arguments Raise {A} e.

#[export] Instance exn_eq_dec : EqDecision exn.
Proof. solve_decision. Defined.
#[export] Instance result_eq_dec {A} `{EqDecision A} : EqDecision (result A).
Proof. solve_decision. Defined.

Definition bind {A B} (m : result A) (k : A → result B) : result B :=
  match m with
  | Ok a => k a
  | Raise e => Raise e
  end.

#[export] Instance result_bind : MBind result := λ A B k m, bind m k.
#[export] Instance result_ret : MRet result := λ A a, Ok a.

(** [try: body / except Exception: return handler] *)
Definition try_except {A} (body : result A) (handler : A) : A :=
  match body with
  | Ok a => a
  | Raise _ => handler
  end.

Definition returns {A} (m : result A) : Prop := ∃ a, m = Ok a.

#[export] Instance returns_dec {A} (m : result A) : Decision (returns m).
Proof.
  destruct m as [a|e]; [left; by exists a | right; by intros [a Ha]].
Defined.

(** *** binary64 *)

Definition prec : Z := 53.
Definition emax : Z := 1024.

Definition is_infinity (f : spec_float) : bool :=
  match f with
  | S754_infinity _ => true
  | _ => false
  end.

(** [float(n)] for an integer: the nearest double, ties to even;
    [OverflowError] when that is beyond the largest finite double. *)
Definition float_of_int (z : Z) : result spec_float :=
  let f := binary_normalize prec emax z 0 false in
  if is_infinity f then Raise OverflowError else Ok f.

(** The double nearest to [(-1)^neg * m * 10^e] (correctly rounded, as
    [strtod] returns it; overflow gives an infinity, underflow a zero). *)
Definition float_of_decimal (neg : bool) (m : N) (e : Z) : spec_float :=
  match m with
  | N0 => S754_zero neg
  | Npos p =>
      match e with
      | Zneg k => SFdiv prec emax (S754_finite neg p 0)
                                  (S754_finite false (10 ^ k)%positive 0)
      | _ => binary_round prec emax neg (p * Z.to_pos (10 ^ e))%positive 0
      end
  end.

(** *** [float(s)] for a string

    The string is read as a sequence of ASCII characters: surrounding
    white space is dropped, underscores between digits are dropped, and the
    rest is a signed [inf], [infinity], [nan] or decimal number. *)

Definition is_space (c : ascii) : bool :=
  let n := N_of_ascii c in
  ((9 <=? n) && (n <=? 13) || (n =? 32))%N.

Definition is_digit (c : ascii) : bool :=
  let n := N_of_ascii c in ((48 <=? n) && (n <=? 57))%N.

Definition digit_val (c : ascii) : N := (N_of_ascii c - 48)%N.

Fixpoint lstrip (s : list ascii) : list ascii :=
  match s with
  | c :: s' => if is_space c then lstrip s' else s
  | [] => []
  end.

Definition strip (s : list ascii) : list ascii :=
  rev (lstrip (rev (lstrip s))).

(** Underscores may only stand between two digits; they are removed. *)
Fixpoint drop_underscores (prev : ascii) (s : list ascii) : option (list ascii) :=
  match s with
  | [] => if Ascii.eqb prev "_" then None else Some []
  | c :: s' =>
      if Ascii.eqb c "_" then
        if is_digit prev then drop_underscores c s' else None
      else if Ascii.eqb prev "_" && negb (is_digit c) then None
      else cons c <$> drop_underscores c s'
  end.

Fixpoint span_digits (s : list ascii) : list ascii * list ascii :=
  match s with
  | c :: s' =>
      if is_digit c then let '(ds, r) := span_digits s' in (c :: ds, r)
      else ([], s)
  | [] => ([], [])
  end.

Definition digits_val (ds : list ascii) : N :=
  fold_left (λ acc c, 10 * acc + digit_val c)%N ds 0%N.

Definition take_sign (s : list ascii) : bool * list ascii :=
  match s with
  | "-"%char :: s' => (true, s')
  | "+"%char :: s' => (false, s')
  | _ => (false, s)
  end.

Definition lower (c : ascii) : ascii :=
  let n := N_of_ascii c in
  if ((65 <=? n) && (n <=? 90))%N then ascii_of_N (n + 32) else c.

Definition lower_string (s : list ascii) : string :=
  string_of_list_ascii (map lower s).

(** The exponent part: empty, or [e]/[E], an optional sign and digits. *)
Definition parse_exponent (s : list ascii) : option Z :=
  match s with
  | [] => Some 0
  | c :: s' =>
      if Ascii.eqb (lower c) "e" then
        let '(neg, s'') := take_sign s' in
        match span_digits s'' with
        | ((_ :: _) as ds, []) =>
            let e := Z.of_N (digits_val ds) in Some (if neg then - e else e)
        | _ => None
        end
      else None
  end.

(** [digitpart ["." [digitpart]] | "." digitpart], then the exponent. *)
Definition parse_number (neg : bool) (s : list ascii) : option spec_float :=
  let '(ip, r) := span_digits s in
  let '(fp, r') :=
    match r with
    | "."%char :: r1 => span_digits r1
    | _ => ([], r)
    end in
  match ip ++ fp with
  | [] => None
  | ds =>
      e ← parse_exponent r';
      Some (float_of_decimal neg (digits_val ds) (e - Z.of_nat (length fp)))
  end.

Definition float_of_string (s : string) : option spec_float :=
  s1 ← drop_underscores "000" (strip (list_ascii_of_string s));
  let '(neg, s2) := take_sign s1 in
  let w := lower_string s2 in
  if String.eqb w "inf" || String.eqb w "infinity" then Some (S754_infinity neg)
  else if String.eqb w "nan" then Some S754_nan
  else parse_number neg s2.

(** [float(x)] *)
Definition float (x : pyval) : result spec_float :=
  match x with
  | PFloat f => Ok f
  | PInt z => float_of_int z
  | PBool b => Ok (if b then SFone prec emax else S754_zero false)
  | PStr s =>
      match float_of_string s with
      | Some f => Ok f
      | None => Raise ValueError
      end
  | PNone | PList _ | PDict _ => Raise TypeError
  end.

(** *** The [operator] module, at floats *)

Definition operator_eq (a b : spec_float) : bool := SFeqb a b.
Definition operator_ne (a b : spec_float) : bool := negb (SFeqb a b).
Definition operator_gt (a b : spec_float) : bool := SFltb b a.
Definition operator_ge (a b : spec_float) : bool := SFleb b a.
Definition operator_lt (a b : spec_float) : bool := SFltb a b.
Definition operator_le (a b : spec_float) : bool := SFleb a b.

(** *** Dictionaries with string keys *)

(** Lists and dictionaries are unhashable; other values are hashable. *)
Definition hashable (k : pyval) : bool :=
  match k with
  | PList _ | PDict _ => false
  | _ => true
  end.

(** [k in d]: hashes [k] first; a key that is not a string is equal to no
    key of a dictionary whose keys are strings. *)
Definition contains {V} (d : gmap string V) (k : pyval) : result bool :=
  match k with
  | PStr s => Ok (bool_decide (is_Some (d !! s)))
  | PList _ | PDict _ => Raise TypeError
  | _ => Ok false
  end.

(** [d[k]] *)
Definition getitem {V} (d : gmap string V) (k : pyval) : result V :=
  match k with
  | PStr s =>
      match d !! s with
      | Some v => Ok v
      | None => Raise KeyError
      end
  | PList _ | PDict _ => Raise TypeError
  | _ => Raise KeyError
  end.

(** *** [all] over a generator: stops at the first false element *)
Fixpoint all {A} (f : A → result bool) (l : list A) : result bool :=
  match l with
  | [] => Ok true
  | x :: l' => b ← f x; if b : bool then all f l' else Ok false
  end.

(** [[x for x in l if f(x)]] *)
Fixpoint comprehension {A} (f : A → result bool) (l : list A) : result (list A) :=
  match l with
  | [] => Ok []
  | x :: l' =>
      b ← f x; r ← comprehension f l'; Ok (if b : bool then x :: r else r)
  end.

(** *** [sorted(l, key=key, reverse=reverse)]

    The sort is stable and compares keys with [<] only. With [reverse] the
    list is reversed, sorted and reversed again, which keeps elements of
    equal key in their original order. *)
Section SortedDef.
Context {A : Type} (key : A → Z).

Fixpoint insert_by (x : A) (l : list A) : list A :=
  match l with
  | [] => [x]
  | y :: l' => if key y <? key x then y :: insert_by x l' else x :: l
  end.

Definition sort_by (l : list A) : list A := foldr insert_by [] l.

Definition sorted (reverse : bool) (l : list A) : list A :=
  if reverse then list.reverse (sort_by (list.reverse l)) else sort_by l.
End SortedDef.
Arguments sorted : simpl never.

End Py.

Import Py.

(** ** The rule engine *)

(** Operator dictionary. *)
Definition OPS : gmap string (spec_float → spec_float → bool) :=
  list_to_map
    [ ("==", operator_eq); ("!=", operator_ne);
      (">", operator_gt); (">=", operator_ge);
      ("<", operator_lt); ("<=", operator_le) ]%string.

(** An action is a dictionary; the engine hands it on as it is. *)
Definition mk_action (decision reason : string) : gmap string pyval :=
  <["decision"%string := PStr decision]> (<["reason"%string := PStr reason]> ∅).

(** A rule record. A field is [None] when the key is not in the record. *)
Record Rule := mkRule {
  name : option string;
  priority : option Z;
  conditions : option (list (list pyval));
  action : option (gmap string pyval)
}.

(** A decimal literal [m * 10^-k] of the source, as the double it denotes. *)
Definition dec (m : N) (k : positive) : pyval :=
  PFloat (float_of_decimal false m (Zneg k)).

(** Knowledge base. *)
Definition SCHOLARSHIP_RULES : list Rule :=
  [ {| name := Some "Top merit candidate"%string;
       priority := Some 100;
       conditions := Some
         [ [PStr "cgpa"; PStr ">="; dec 37 1];
           [PStr "co_curricular score"; PStr ">="; PInt 80];
           [PStr "family_income"; PStr "<="; PInt 8000];
           [PStr "disciplinary_actions"; PStr "=="; PInt 0] ];
       action := Some (mk_action "AWARD FULL"
         "Excellent academic & co-curricular performance, with acceptable need") |};
    {| name := Some "Low CGPA not eligible"%string;
       priority := Some 95;
       conditions := Some [ [PStr "cgpa"; PStr "<"; dec 25 1] ];
       action := Some (mk_action "REJECT"
         "CGPA below minimum scholarship requirement") |};
    {| name := Some "Serious disciplinary record"%string;
       priority := Some 90;
       conditions := Some [ [PStr "disciplinary_actions"; PStr ">="; PInt 2] ];
       action := Some (mk_action "REJECT" "Too many disciplinary records") |};
    {| name := Some "Good candidate partial scholarship"%string;
       priority := Some 80;
       conditions := Some
         [ [PStr "cgpa"; PStr ">="; dec 33 1];
           [PStr "co_curricular score"; PStr ">="; PInt 60];
           [PStr "family_income"; PStr "<="; PInt 12000];
           [PStr "disciplinary_actions"; PStr "<="; PInt 1] ];
       action := Some (mk_action "AWARD PARTIAL"
         "Good academic & involvement record with moderate need") |};
    {| name := Some "Need-based review"%string;
       priority := Some 70;
       conditions := Some
         [ [PStr "cgpa"; PStr ">="; dec 25 1];
           [PStr "family_income"; PStr "<="; PInt 4000] ];
       action := Some (mk_action "REVIEW"
         "High need but borderline academic score") |} ].

(** Evaluate a single condition: [[field, op, value]]. *)
Definition evaluate_condition (facts : gmap string pyval) (cond : list pyval)
    : result bool :=
  if negb (length cond =? 3)%nat then Ok false
  else
    match cond with
    | [field; op; value] =>
        known ← contains facts field;
        if negb known then Ok false
        else
          supported ← contains OPS op;
          if negb supported then Ok false
          else
            Ok (try_except
                  (f ← getitem OPS op;
                   x ← getitem facts field;
                   a ← float x;
                   b ← float value;
                   Ok (f a b))
                  false)
    | _ => Raise ValueError
    end.

(** All conditions must be true (AND). *)
Definition rule_matches (facts : gmap string pyval) (rule : Rule) : result bool :=
  all (evaluate_condition facts) (default [] (conditions rule)).

Definition no_match_action : gmap string pyval :=
  mk_action "REJECT" "No rule criteria matched for an award or review".

Definition no_action_action : gmap string pyval :=
  mk_action "REVIEW" "Matched rule has no defined action".

Definition priority_key (r : Rule) : Z := default 0 (priority r).

(** Returns [(best_action, fired_rules)]. *)
Definition run_rules (facts : gmap string pyval) (rules : list Rule)
    : result (gmap string pyval * list Rule) :=
  fired ← comprehension (rule_matches facts) rules;
  match fired with
  | [] => Ok (no_match_action, [])
  | _ :: _ =>
      let fired_sorted := sorted priority_key true fired in
      match fired_sorted with
      | first :: _ => Ok (default no_action_action (action first), fired_sorted)
      | [] => Raise IndexError
      end
  end.

(** ** Definitions used by the statements *)

(** Orders on keys: ascending and descending. *)
Definition asc {A} (key : A → Z) : relation A := λ a b, key a ≤ key b.
Definition desc {A} (key : A → Z) : relation A := λ a b, key b ≤ key a.

(** A rule fires on the facts when [rule_matches] returns [True]. *)
Definition fires (facts : gmap string pyval) (r : Rule) : Prop :=
  rule_matches facts r = Ok true.

#[export] Instance fires_dec facts r : Decision (fires facts r).
Proof. unfold fires. apply _. Defined.


(** The double 3.0, and the three ways to write it in a fact set or in a
    rule: the integer [3], the float [3.0] and the string ["3"]. *)
Definition three : spec_float := S754_finite false 6755399441055744 (-51).

Definition forms_of_three : list pyval := [PInt 3; PFloat three; PStr "3"].

(** The facts dictionary the application builds from the four inputs: the
    CGPA is a float rounded to two decimals (here [cgpa100 / 100]), the
    other three are integers. *)
Definition applicant (cgpa100 : N) (income score disciplinary : Z)
    : gmap string pyval :=
  list_to_map
    [ ("cgpa", dec cgpa100 2);
      ("family_income", PInt income);
      ("co_curricular score", PInt score);
      ("disciplinary_actions", PInt disciplinary) ]%string.

(** ** The engine on the object store

    The fact set, the rule set, every rule, the conditions of a rule, every
    condition and every action are objects with an address. The engine is
    given addresses; what it does to the objects is written out: it reads
    them ([len], unpacking, [in], [[]], [.get], iteration) and it creates
    new ones (the default arguments of [.get], the list the comprehension
    builds, the list [sorted] returns, the default actions). [OPS] is
    bound once when the module is loaded and is not an object of the
    store. *)

Inductive object :=
  | ODict (d : gmap string pyval)
  | OList (l : list pyval)
  | ORefs (l : list nat)
  | ORule (n : option string) (p : option Z) (c : option nat) (a : option nat).

Abbreviation heap := (gmap nat object).

(** A computation on the store that returns or raises. *)
Definition St (A : Type) : Type := heap → result A * heap.

Definition st_ret {A} (a : A) : St A := λ h, (Ok a, h).

Definition st_raise {A} (e : exn) : St A := λ h, (Raise e, h).

Definition st_bind {A B} (m : St A) (k : A → St B) : St B :=
  λ h, match m h with
       | (Ok a, h') => k a h'
       | (Raise e, h') => (Raise e, h')
       end.

#[export] Instance st_mbind : MBind St := λ A B k m, st_bind m k.
#[export] Instance st_mret : MRet St := λ A a, st_ret a.

(** A call that touches no object. *)
Definition lift {A} (r : result A) : St A := λ h, (r, h).

(** A new object, at an address that is not in use. *)
Definition alloc (o : object) : St nat :=
  λ h, let l := fresh (dom h) in (Ok l, <[l:=o]> h).

(** The object at an address. (A reference always has its object; the
    second branch makes the function total.) *)
Definition read (l : nat) : St object :=
  λ h, match h !! l with
       | Some o => (Ok o, h)
       | None => (Raise KeyError, h)
       end.

Definition read_dict (l : nat) : St (gmap string pyval) :=
  o ← read l;
  match o with
  | ODict d => mret d
  | _ => st_raise TypeError
  end.

Definition read_list (l : nat) : St (list pyval) :=
  o ← read l;
  match o with
  | OList vs => mret vs
  | _ => st_raise TypeError
  end.

Definition read_refs (l : nat) : St (list nat) :=
  o ← read l;
  match o with
  | ORefs ls => mret ls
  | _ => st_raise TypeError
  end.

(** [try: body / except Exception: return handler] *)
Definition try_except_at {A} (body : St A) (handler : A) : St A :=
  λ h, match body h with
       | (Ok a, h') => (Ok a, h')
       | (Raise _, h') => (Ok handler, h')
       end.

(** [len(cond)] *)
Definition len_at (cond : nat) : St nat :=
  vs ← read_list cond; mret (length vs).

(** [k in d] and [d[k]] for a dictionary object. *)
Definition contains_at (d : nat) (k : pyval) : St bool :=
  fs ← read_dict d; lift (contains fs k).

Definition getitem_at (d : nat) (k : pyval) : St pyval :=
  fs ← read_dict d; lift (getitem fs k).

(** [evaluate_condition], given the addresses of the facts and of the
    condition. *)
Definition evaluate_condition_at (facts cond : nat) : St bool :=
  n ← len_at cond;
  if negb (n =? 3)%nat then mret false
  else
    items ← read_list cond;
    match items with
    | [field; op; value] =>
        known ← contains_at facts field;
        if negb known then mret false
        else
          supported ← lift (contains OPS op);
          if negb supported then mret false
          else
            try_except_at
              (f ← lift (getitem OPS op);
               x ← getitem_at facts field;
               a ← lift (float x);
               b ← lift (float value);
               mret (f a b))
              false
    | _ => st_raise ValueError
    end.

(** [rule.get("conditions", dflt)], [rule.get("priority", 0)] and
    [rule.get("action", dflt)]. *)
Definition get_conditions (rule dflt : nat) : St nat :=
  o ← read rule;
  match o with
  | ORule _ _ c _ => mret (default dflt c)
  | _ => st_raise TypeError
  end.

Definition get_priority (rule : nat) : St Z :=
  o ← read rule;
  match o with
  | ORule _ p _ _ => mret (default 0 p)
  | _ => st_raise TypeError
  end.

Definition get_action (rule dflt : nat) : St nat :=
  o ← read rule;
  match o with
  | ORule _ _ _ a => mret (default dflt a)
  | _ => st_raise TypeError
  end.

Fixpoint all_at {A} (f : A → St bool) (l : list A) : St bool :=
  match l with
  | [] => mret true
  | x :: l' => b ← f x; if b : bool then all_at f l' else mret false
  end.

Fixpoint comprehension_at {A} (f : A → St bool) (l : list A) : St (list A) :=
  match l with
  | [] => mret []
  | x :: l' =>
      b ← f x; r ← comprehension_at f l'; mret (if b : bool then x :: r else r)
  end.

(** [rule_matches]: the default argument [[]] is a new list. *)
Definition rule_matches_at (facts rule : nat) : St bool :=
  empty ← alloc (ORefs []);
  conds ← get_conditions rule empty;
  cs ← read_refs conds;
  all_at (evaluate_condition_at facts) cs.

(** The keys [sorted] computes, each with its rule. *)
Fixpoint keys_at (l : list nat) : St (list (Z * nat)) :=
  match l with
  | [] => mret []
  | r :: l' => k ← get_priority r; ks ← keys_at l'; mret ((k, r) :: ks)
  end.

(** [sorted(l, key=lambda r: r.get("priority", 0), reverse=True)]: a new
    list; [l] stays as it is. *)
Definition sorted_at (l : nat) : St nat :=
  rs ← read_refs l;
  ks ← keys_at rs;
  alloc (ORefs (snd <$> sorted fst true ks)).

(** [run_rules], given the addresses of the facts and of the rule set,
    returns the addresses of the action and of the fired list. *)
Definition run_rules_at (facts rules : nat) : St (nat * nat) :=
  rs ← read_refs rules;
  items ← comprehension_at (rule_matches_at facts) rs;
  fired ← alloc (ORefs items);
  match items with
  | [] =>
      a ← alloc (ODict no_match_action);
      e ← alloc (ORefs []);
      mret (a, e)
  | _ :: _ =>
      fired_sorted ← sorted_at fired;
      ss ← read_refs fired_sorted;
      match ss with
      | first :: _ =>
          dflt ← alloc (ODict no_action_action);
          best ← get_action first dflt;
          mret (best, fired_sorted)
      | [] => st_raise IndexError
      end
  end.

(** What the objects stand for: a condition, a rule, a rule set. *)
Definition cond_at (h : heap) (l : nat) (vs : list pyval) : Prop :=
  h !! l = Some (OList vs).

Definition rule_at (h : heap) (l : nat) (r : Rule) : Prop :=
  ∃ c a,
    h !! l = Some (ORule (name r) (priority r) c a)
    ∧ match c, conditions r with
      | None, None => True
      | Some lc, Some cs =>
          ∃ ls, h !! lc = Some (ORefs ls) ∧ Forall2 (cond_at h) ls cs
      | _, _ => False
      end
    ∧ match a, action r with
      | None, None => True
      | Some la, Some d => h !! la = Some (ODict d)
      | _, _ => False
      end.

Definition rules_at (h : heap) (l : nat) (rs : list Rule) : Prop :=
  ∃ ls, h !! l = Some (ORefs ls) ∧ Forall2 (rule_at h) ls rs.

(** What a caller sees of an outcome: the contents of the action and the
    rules of the fired list, or the exception. *)
Definition outcome_at (out : result (nat * nat) * heap)
    (r : result (gmap string pyval * list Rule)) : Prop :=
  match out.1, r with
  | Ok (a, l), Ok (d, fired) =>
      out.2 !! a = Some (ODict d) ∧ rules_at out.2 l fired
  | Raise e, Raise e' => e = e'
  | _, _ => False
  end.

(** A computation that leaves every object that exists as it is: the
    store it ends with holds the store it started from. *)
Definition grows {A} (m : St A) : Prop := ∀ h, h ⊆ (m h).2.

(** A catch-all rule that carries neither conditions nor action. *)
Definition bare_rule : Rule := mkRule (Some "catch-all"%string) (Some 1) None None.

(** Three rules without conditions: priority -5, no priority, priority 10. *)
Definition low_rule : Rule := mkRule (Some "low"%string) (Some (-5)) None None.
Definition plain_rule : Rule := mkRule (Some "plain"%string) None None None.
Definition high_rule : Rule := mkRule (Some "high"%string) (Some 10) None None.
Definition zero_rule : Rule := mkRule (Some "zero"%string) (Some 0) None None.

(** A rule set that is not in order of priority, with a tie between its
    first and its last rule and a rule that does not fire on
    [applicant 380 7000 85 0]. *)
Definition merit_rule : Rule :=
  mkRule (Some "merit"%string) (Some 5)
    (Some [[PStr "cgpa"; PStr ">="; PInt 3];
           [PStr "family_income"; PStr "<="; PInt 8000]])
    (Some (mk_action "AWARD PARTIAL" "merit")).
Definition weak_rule : Rule :=
  mkRule (Some "weak"%string) (Some 7)
    (Some [[PStr "cgpa"; PStr "<"; PInt 2]])
    (Some (mk_action "REJECT" "weak")).
Definition best_rule : Rule :=
  mkRule (Some "best"%string) (Some 9)
    (Some [[PStr "cgpa"; PStr ">="; dec 35 1]])
    (Some (mk_action "AWARD FULL" "best")).
Definition need_rule : Rule :=
  mkRule (Some "need"%string) (Some 5)
    (Some [[PStr "family_income"; PStr "<="; PInt 9000]])
    (Some (mk_action "REVIEW" "need")).
Definition sample_rules : list Rule :=
  [merit_rule; weak_rule; best_rule; need_rule].

(** A rule with a condition whose field is a list. *)
Definition unhashable_rule : Rule :=
  mkRule None None (Some [[PList []; PStr ">="; PInt 3]]) None.

(** A store that holds the facts of [applicant 380 7000 85 0] at address
    [b] and [sample_rules] at address [b + 18], every condition, list of
    conditions, action and rule being an object of its own, and one object
    more that the engine is not given. *)
Definition sample_heap (b : nat) : heap :=
  list_to_map
    [ (b, ODict (applicant 380 7000%Z 85%Z 0%Z));
      (b + 1, OList [PStr "cgpa"; PStr ">="; PInt 3%Z]);
      (b + 2, OList [PStr "family_income"; PStr "<="; PInt 8000%Z]);
      (b + 3, ORefs [b + 1; b + 2]);
      (b + 4, ODict (mk_action "AWARD PARTIAL" "merit"));
      (b + 5, ORule (Some "merit"%string) (Some 5%Z) (Some (b + 3)) (Some (b + 4)));
      (b + 6, OList [PStr "cgpa"; PStr "<"; PInt 2%Z]);
      (b + 7, ORefs [b + 6]);
      (b + 8, ODict (mk_action "REJECT" "weak"));
      (b + 9, ORule (Some "weak"%string) (Some 7%Z) (Some (b + 7)) (Some (b + 8)));
      (b + 10, OList [PStr "cgpa"; PStr ">="; dec 35 1]);
      (b + 11, ORefs [b + 10]);
      (b + 12, ODict (mk_action "AWARD FULL" "best"));
      (b + 13, ORule (Some "best"%string) (Some 9%Z) (Some (b + 11)) (Some (b + 12)));
      (b + 14, OList [PStr "family_income"; PStr "<="; PInt 9000%Z]);
      (b + 15, ORefs [b + 14]);
      (b + 16, ODict (mk_action "REVIEW" "need"));
      (b + 17, ORule (Some "need"%string) (Some 5%Z) (Some (b + 15)) (Some (b + 16)));
      (b + 18, ORefs [b + 5; b + 9; b + 13; b + 17]);
      (b + 19, OList [PStr "unrelated"]) ]%nat.

(** ** Definitions used by the further properties *)

(** A value that, when it is a string, holds ASCII characters only: the
    strings on which [float] is modelled as the code coerces them. *)
Definition ascii_text (v : pyval) : Prop :=
  match v with
  | PStr s => Forall (λ c, (N_of_ascii c < 128)%N) (list_ascii_of_string s)
  | _ => True
  end.

(** Whether operator [o] holds, given how the coerced fact value compares
    with the coerced threshold ([None]: one of them is not a number). *)
Definition holds_of (c : option comparison) (o : string) : bool :=
  match c with
  | Some Lt => bool_decide (o ∈ ["<"; "<="; "!="]%string)
  | Some Eq => bool_decide (o ∈ ["=="; "<="; ">="]%string)
  | Some Gt => bool_decide (o ∈ [">"; ">="; "!="]%string)
  | None => bool_decide (o = "!="%string)
  end.


(** *** The display helpers

    A Streamlit call is recorded with its argument. The argument of an
    f-string is kept as its pieces: the literal text and the values that
    are formatted into it. *)

Inductive piece :=
  | Lit (s : string)
  | Fmt (v : pyval).

(** The line [f"* `{field}` **{op}** `{value}`"]. *)
Definition condition_line (field op value : pyval) : list piece :=
  [Lit "* `"; Fmt field; Lit "` **"; Fmt op; Lit "** `"; Fmt value; Lit "`"].

(** The line of a condition of three elements. *)
Definition line_of (cond : list pyval) : list piece :=
  match cond with
  | [field; op; value] => condition_line field op value
  | _ => []
  end.

(** The loop of [display_simple_conditions]; [out] holds the [st.markdown]
    calls made so far. Unpacking a condition that has not three elements
    raises [ValueError]. *)
Fixpoint display_each (conditions : list (list pyval)) (out : list (list piece))
    : result unit * list (list piece) :=
  match conditions with
  | [] => (Ok (), out)
  | cond :: rest =>
      match cond with
      | [field; op; value] =>
          display_each rest (out ++ [condition_line field op value])
      | _ => (Raise ValueError, out)
      end
  end.

(** Prints conditions in a simple, readable list format. *)
Definition display_simple_conditions (conditions : list (list pyval))
    (out : list (list piece)) : result unit * list (list piece) :=
  display_each conditions (out ++ [[Lit "##### Conditions"]]).

(** [needle in hay] for two strings. *)
Fixpoint str_contains (needle hay : string) : bool :=
  String.prefix needle hay
  || match hay with
     | EmptyString => false
     | String _ hay' => str_contains needle hay'
     end.

(** [needle in v] for a string [needle]: a substring test on a string, a
    test for an equal element on a list, for a key on a dictionary;
    [TypeError] on a value that is no container. *)
Definition str_in (needle : string) (v : pyval) : result bool :=
  match v with
  | PStr s => Ok (str_contains needle s)
  | PList l =>
      Ok (existsb (λ x, match x with
                        | PStr t => String.eqb t needle
                        | _ => false
                        end) l)
  | PDict d => Ok (existsb (λ kv, String.eqb kv.1 needle) d)
  | _ => Raise TypeError
  end.

(** [v == s] for a string [s]. *)
Definition str_eq (v : pyval) (s : string) : bool :=
  match v with
  | PStr t => String.eqb t s
  | _ => false
  end.

(** The decision badge: which of [st.success], [st.error] and [st.warning]
    shows the decision. *)
Inductive badge := success | error | warning.

Definition decision_badge (action : gmap string pyval) : result badge :=
  let decision := default (PStr "REVIEW") (action !! "decision"%string) in
  awarded ← str_in "AWARD" decision;
  if awarded : bool then Ok success
  else if str_eq decision "REJECT" then Ok error
  else Ok warning.

(** ** Properties of the runtime fragment *)

Section SortedFacts.
Context {A : Type} (key : A → Z).

Lemma insert_by_perm x l : insert_by key x l ≡ₚ x :: l.
Proof.
  induction l as [|y l IH]; simpl; [done|].
  destruct (key y <? key x); [|done].
  rewrite IH. apply Permutation_swap.
Qed.

Lemma sort_by_perm l : sort_by key l ≡ₚ l.
Proof.
  induction l as [|x l IH]; simpl; [done|].
  rewrite insert_by_perm. by rewrite IH.
Qed.

Lemma insert_by_hd a x l :
  asc key a x → HdRel (asc key) a l → HdRel (asc key) a (insert_by key x l).
Proof.
  intros Hax Hal. destruct l as [|y l]; simpl; [by constructor|].
  inversion_clear Hal. destruct (key y <? key x); by constructor.
Qed.

Lemma insert_by_sorted x l :
  Sorted (asc key) l → Sorted (asc key) (insert_by key x l).
Proof.
  induction 1 as [|y l Hl IH Hy]; simpl; [by repeat constructor|].
  destruct (key y <? key x) eqn:E.
  - constructor; [done|]. apply insert_by_hd; [|done].
    unfold asc. lia.
  - constructor; [by constructor|]. constructor. unfold asc. lia.
Qed.

Lemma sort_by_sorted l : Sorted (asc key) (sort_by key l).
Proof.
  induction l; simpl; [constructor|]. by apply insert_by_sorted.
Qed.

(** Stability: the elements of any one key stay in their order. *)
Lemma insert_by_filter p x l :
  filter (λ y, key y = p) (insert_by key x l)
  = filter (λ y, key y = p) (x :: l).
Proof.
  induction l as [|y l IH]; simpl; [done|].
  destruct (key y <? key x) eqn:E; [|done].
  rewrite filter_cons, IH, !filter_cons.
  repeat case_decide; try done. lia.
Qed.

Lemma sort_by_filter p l :
  filter (λ y, key y = p) (sort_by key l) = filter (λ y, key y = p) l.
Proof.
  induction l as [|x l IH]; simpl; [done|].
  by rewrite insert_by_filter, !filter_cons, IH.
Qed.

Lemma sorted_perm rv l : sorted key rv l ≡ₚ l.
Proof.
  destruct rv; unfold sorted; [|apply sort_by_perm].
  by rewrite reverse_Permutation, sort_by_perm, reverse_Permutation.
Qed.

Lemma sorted_reverse_desc l : Sorted (desc key) (sorted key true l).
Proof. unfold sorted. apply (Sorted_reverse (asc key)), sort_by_sorted. Qed.

Lemma sorted_stable rv p l :
  filter (λ y, key y = p) (sorted key rv l) = filter (λ y, key y = p) l.
Proof.
  destruct rv; unfold sorted; [|apply sort_by_filter].
  by rewrite filter_reverse, sort_by_filter, filter_reverse, reverse_involutive.
Qed.

Lemma sublist_into_filter (P : A → Prop) `{!∀ x, Decision (P x)} k l :
  k `sublist_of` l → Forall P k → k `sublist_of` filter P l.
Proof.
  induction 1 as [|x k l _ IH|x k l _ IH]; intros Hk.
  - done.
  - apply Forall_cons in Hk as [Hx Hk].
    rewrite filter_cons_True by done. apply sublist_skip. by apply IH.
  - rewrite filter_cons. case_decide; [apply sublist_cons|]; by apply IH.
Qed.

(** Two elements of equal key stand in the sorted list in the order they
    have in the list that is sorted. *)
Lemma sorted_keeps_order rv a b l :
  [a; b] `sublist_of` l → key a = key b → [a; b] `sublist_of` sorted key rv l.
Proof.
  intros Hab Hk.
  transitivity (filter (λ y, key y = key a) (sorted key rv l));
    [|apply sublist_filter].
  rewrite sorted_stable. apply sublist_into_filter; [done|].
  by repeat constructor.
Qed.

Lemma desc_head_max x l :
  Sorted (desc key) (x :: l) → Forall (λ y, key y ≤ key x) l.
Proof.
  intros Hs.
  assert (Transitive (desc key)) by (intros a b c; unfold desc; lia).
  apply (Sorted_StronglySorted _) in Hs.
  by apply StronglySorted_cons in Hs as [Hx _].
Qed.

Lemma sorted_nil_inv rv l : sorted key rv l = [] → l = [].
Proof.
  intros E. apply Permutation_nil_r. rewrite <-E. symmetry. apply sorted_perm.
Qed.
End SortedFacts.

Section Gathering.
Context {A : Type} (f : A → result bool).

Lemma comprehension_filter l :
  Forall (λ x, returns (f x)) l →
  comprehension f l = Ok (filter (λ x, f x = Ok true) l).
Proof.
  induction 1 as [|x l [b Hb] _ IH]; simpl; [done|].
  rewrite Hb, IH. simpl. rewrite filter_cons, Hb.
  destruct b; case_decide; done.
Qed.

Lemma comprehension_returns l fired :
  comprehension f l = Ok fired → Forall (λ x, returns (f x)) l.
Proof.
  revert fired. induction l as [|x l IH]; intros fired; simpl; [by constructor|].
  destruct (f x) as [b|e] eqn:Hx; simpl; [|done].
  destruct (comprehension f l) as [r|e] eqn:Hl; simpl; [|done].
  intros _. constructor; [by exists b|]. by eapply IH.
Qed.

Lemma all_true l :
  all f l = Ok true ↔ Forall (λ x, f x = Ok true) l.
Proof.
  induction l as [|x l IH]; simpl.
  - split; [constructor | done].
  - rewrite Forall_cons, <-IH.
    destruct (f x) as [[]|]; simpl; intuition congruence.
Qed.
End Gathering.

(** ** Rule matching *)

Lemma evaluate_condition_absent facts (f : string) op value :
  facts !! f = None →
  evaluate_condition facts [PStr f; op; value] = Ok false.
Proof.
  intros Hf. unfold evaluate_condition. simpl.
  rewrite bool_decide_eq_false_2; [done|].
  rewrite Hf. by intros [? ?].
Qed.

(** C6. A rule matches iff every one of its conditions holds; a rule with
    an empty condition list matches whatever the facts are; a rule with a
    condition on a field that the facts do not have does not match. *)
Theorem rule_matches_all_conditions facts rule :
  (rule_matches facts rule = Ok true ↔
     Forall (λ c, evaluate_condition facts c = Ok true)
            (default [] (conditions rule)))
  ∧ (conditions rule = Some [] → rule_matches facts rule = Ok true)
  ∧ (∀ (f : string) op value,
       [PStr f; op; value] ∈ default [] (conditions rule) →
       facts !! f = None →
       rule_matches facts rule ≠ Ok true).
Proof.
  unfold rule_matches. split_and!.
  - apply all_true.
  - by intros ->.
  - intros f op value Hin Hf Hall.
    rewrite all_true, Forall_forall in Hall.
    specialize (Hall _ Hin).
    by rewrite evaluate_condition_absent in Hall.
Qed.

(** C9. A rule record without a [conditions] key is read as a rule with an
    empty condition list, and so matches whatever the facts are. *)
Theorem rule_matches_no_conditions_key facts n p a :
  rule_matches facts (mkRule n p None a) = rule_matches facts (mkRule n p (Some []) a)
  ∧ rule_matches facts (mkRule n p None a) = Ok true.
Proof. done. Qed.

(** ** Resolution *)

Lemma run_rules_fired facts rules :
  Forall (λ r, returns (rule_matches facts r)) rules →
  run_rules facts rules =
    let fired_sorted := sorted priority_key true (filter (fires facts) rules) in
    Ok (match fired_sorted with
        | [] => no_match_action
        | first :: _ => default no_action_action (action first)
        end, fired_sorted).
Proof.
  intros Hret. unfold run_rules.
  rewrite (comprehension_filter _ _ Hret). simpl.
  change (λ x, rule_matches facts x = Ok true) with (fires facts).
  destruct (filter (fires facts) rules) as [|r fired] eqn:Hf; [done|].
  destruct (sorted priority_key true (r :: fired)) as [|first rest] eqn:Hs; [|done].
  by apply sorted_nil_inv in Hs.
Qed.

(** C1 (amended). On a rule set that is matched without an exception and
    of which at least one rule fires, the rules that fire are gathered in
    the order of the rule set and sorted by their [priority], a missing
    one counting as 0, highest first: the fired list is a permutation of
    the gathered rules, its priorities descend, no rule has a higher
    priority than the first, and for every priority the rules of that
    priority stand in the order they have in the rule set (stability): of
    two firing rules of equal priority the one that comes first in the rule
    set comes first in the fired list. The decision is the action of the
    first rule of the sorted list (the default of [run_rules] when that
    rule carries none), returned with the whole sorted list. *)
Theorem run_rules_sorted_by_priority facts rules :
  Forall (λ r, returns (rule_matches facts r)) rules →
  filter (fires facts) rules ≠ [] →
  ∃ first rest,
    run_rules facts rules
      = Ok (default no_action_action (action first), first :: rest)
    ∧ first :: rest ≡ₚ filter (fires facts) rules
    ∧ Sorted (λ a b, default 0 (priority b) ≤ default 0 (priority a))
        (first :: rest)
    ∧ Forall (λ r, default 0 (priority r) ≤ default 0 (priority first)) rest
    ∧ (∀ p, filter (λ r, default 0 (priority r) = p) (first :: rest)
            = filter (λ r, default 0 (priority r) = p)
                (filter (fires facts) rules))
    ∧ (∀ a b, [a; b] `sublist_of` rules → fires facts a → fires facts b →
              default 0 (priority a) = default 0 (priority b) →
              [a; b] `sublist_of` first :: rest)
    ∧ (∀ a, action first = Some a →
            run_rules facts rules = Ok (a, first :: rest)).
Proof.
  intros Hret Hne. rewrite (run_rules_fired _ _ Hret). simpl.
  pose proof (sorted_perm priority_key true (filter (fires facts) rules)) as Hp.
  pose proof (sorted_reverse_desc priority_key (filter (fires facts) rules)) as Hs.
  pose proof (λ p, sorted_stable priority_key true p (filter (fires facts) rules)) as Hst.
  destruct (sorted priority_key true (filter (fires facts) rules))
    as [|first rest] eqn:E.
  - by apply sorted_nil_inv in E.
  - exists first, rest. split_and!.
    + done.
    + done.
    + exact Hs.
    + exact (desc_head_max priority_key first rest Hs).
    + exact Hst.
    + intros a b Hab Ha Hb Hk. rewrite <-E.
      apply (sorted_keeps_order priority_key); [|exact Hk].
      apply sublist_into_filter; [done|]. by repeat constructor.
    + by intros a ->.
Qed.

(** C3 (amended). When no rule fires, and so for the empty rule set, the
    result is the action with decision [REJECT] and reason
    [No rule criteria matched for an award or review], and no fired rule. *)
Theorem run_rules_no_match facts rules :
  Forall (λ r, rule_matches facts r = Ok false) rules →
  run_rules facts rules
    = Ok (mk_action "REJECT" "No rule criteria matched for an award or review", []).
Proof.
  intros Hno.
  assert (comprehension (rule_matches facts) rules = Ok []) as Hc.
  { induction Hno as [|r l Hr _ IH]; simpl; [done|]. by rewrite Hr, IH. }
  unfold run_rules. by rewrite Hc.
Qed.

(** C4 (amended). When the first rule of the sorted list has no [action]
    key, the decision is the action with decision [REVIEW] and reason
    [Matched rule has no defined action]; an action that is present is
    returned as it is. *)
Theorem run_rules_missing_action facts rules first rest :
  Forall (λ r, returns (rule_matches facts r)) rules →
  sorted priority_key true (filter (fires facts) rules) = first :: rest →
  (action first = None →
     run_rules facts rules
       = Ok (mk_action "REVIEW" "Matched rule has no defined action", first :: rest))
  ∧ (∀ a, action first = Some a →
     run_rules facts rules = Ok (a, first :: rest)).
Proof.
  intros Hret Hs. rewrite (run_rules_fired _ _ Hret). simpl. rewrite Hs.
  split; [by intros -> | by intros a ->].
Qed.

Lemma run_rules_inv facts rules a l :
  run_rules facts rules = Ok (a, l) →
  Forall (λ r, returns (rule_matches facts r)) rules
  ∧ l = sorted priority_key true (filter (fires facts) rules).
Proof.
  intros Hrun.
  assert (Forall (λ r, returns (rule_matches facts r)) rules) as Hret.
  { unfold run_rules in Hrun.
    destruct (comprehension (rule_matches facts) rules) as [fired|e] eqn:Hc;
      [|done].
    by eapply comprehension_returns. }
  split; [done|].
  rewrite (run_rules_fired _ _ Hret) in Hrun. simpl in Hrun. congruence.
Qed.

Section SortedFmap.
Context {A : Type} (key : A → Z) (g : A → A).
Hypothesis key_g : ∀ x, key (g x) = key x.



End SortedFmap.



(** ** The condition evaluator *)

Lemma contains_insert (facts : gmap string pyval) f x :
  contains (<[f:=x]> facts) (PStr f) = Ok true.
Proof.
  unfold contains. rewrite lookup_insert_eq.
  by rewrite bool_decide_eq_true_2.
Qed.

Lemma contains_hashable {V} (d : gmap string V) k :
  hashable k = true → returns (contains d k).
Proof. destruct k; simpl; intros; try done; by eexists. Qed.

(** With a hashable field and a hashable operator the evaluator returns. *)
Lemma evaluate_condition_returns facts cond :
  (∀ field op value, cond = [field; op; value] →
     hashable field = true ∧ hashable op = true) →
  returns (evaluate_condition facts cond).
Proof.
  intros Hh. unfold evaluate_condition.
  destruct cond as [|field [|op [|value [|extra cond]]]];
    simpl; try by eexists.
  destruct (Hh field op value eq_refl) as [Hf Ho].
  destruct (contains_hashable facts field Hf) as [b1 ->]. simpl.
  destruct b1; simpl; [|by eexists].
  destruct (contains_hashable OPS op Ho) as [b2 ->]. simpl.
  destruct b2; simpl; by eexists.
Qed.

Lemma all_returns {A} (f : A → result bool) l :
  Forall (λ x, returns (f x)) l → returns (all f l).
Proof.
  induction 1 as [|x l [b Hb] _ IH]; simpl; [by eexists|].
  rewrite Hb. simpl. destruct b; [done | by eexists].
Qed.

(** A rule whose conditions all have a hashable field and operator, as the
    strings of the exchange format are, is matched without an exception. *)
Lemma rule_matches_returns facts rule :
  Forall (λ cond, ∀ field op value, cond = [field; op; value] →
            hashable field = true ∧ hashable op = true)
         (default [] (conditions rule)) →
  returns (rule_matches facts rule).
Proof.
  intros Hh. apply all_returns.
  eapply Forall_impl; [exact Hh|]. intros cond. apply evaluate_condition_returns.
Qed.

(** What the evaluator computes when the field is known and the operator
    supported: both sides go through [float], then the operator is applied;
    a failing coercion gives [False]. *)
Lemma evaluate_condition_coerces facts (f o : string) x cmp value :
  facts !! f = Some x →
  OPS !! o = Some cmp →
  evaluate_condition facts [PStr f; PStr o; value]
    = Ok (match float x, float value with
          | Ok a, Ok b => cmp a b
          | _, _ => false
          end).
Proof.
  intros Hf Ho. unfold evaluate_condition, contains, getitem.
  cbn [length Nat.eqb negb]. rewrite Hf, Ho.
  rewrite !bool_decide_eq_true_2 by (by eexists). simpl.
  destruct (float x) as [a|e]; simpl; [|done].
  by destruct (float value) as [b|e'].
Qed.

(** The evaluator sees the fact's value only through its coercion. *)
Lemma evaluate_condition_fact_float facts (f : string) x x' op value :
  float x = float x' →
  evaluate_condition (<[f:=x]> facts) [PStr f; op; value]
    = evaluate_condition (<[f:=x']> facts) [PStr f; op; value].
Proof.
  intros Hx. unfold evaluate_condition.
  cbn [length Nat.eqb negb]. rewrite !contains_insert. simpl.
  destruct (contains OPS op) as [[]|e]; simpl; [|done|done].
  rewrite !lookup_insert_eq.
  destruct (getitem OPS op) as [cmp|e]; simpl; [|done].
  by rewrite Hx.
Qed.

(** The evaluator sees the threshold only through its coercion. *)
Lemma evaluate_condition_threshold_float facts field op value value' :
  float value = float value' →
  evaluate_condition facts [field; op; value]
    = evaluate_condition facts [field; op; value'].
Proof.
  intros Hv. unfold evaluate_condition. cbn [length Nat.eqb negb].
  destruct (contains facts field) as [[]|e]; simpl; [|done|done].
  destruct (contains OPS op) as [[]|e]; simpl; [|done|done].
  destruct (getitem OPS op) as [cmp|e]; simpl; [|done].
  destruct (getitem facts field) as [x|e]; simpl; [|done].
  destruct (float x) as [a|e]; simpl; [|done].
  by rewrite Hv.
Qed.

Lemma float_forms_of_three v : v ∈ forms_of_three → float v = Ok three.
Proof.
  unfold forms_of_three. rewrite !elem_of_cons, elem_of_nil.
  intros [->|[->|[->|[]]]]; by vm_compute.
Qed.

(** C5. The evaluator coerces the fact's value and the threshold with
    [float] and compares the two doubles; hence a fact given as [3], [3.0]
    or ["3"] gives the same result against any threshold, and a threshold
    given in any of these forms gives the same result on any facts. *)
Theorem evaluate_condition_numeric_coercion :
  (∀ facts (f o : string) x cmp value,
     facts !! f = Some x →
     OPS !! o = Some cmp →
     evaluate_condition facts [PStr f; PStr o; value]
       = Ok (match float x, float value with
             | Ok a, Ok b => cmp a b
             | _, _ => false
             end))
  ∧ (∀ facts (f : string) op value x x',
       x ∈ forms_of_three → x' ∈ forms_of_three →
       evaluate_condition (<[f:=x]> facts) [PStr f; op; value]
         = evaluate_condition (<[f:=x']> facts) [PStr f; op; value])
  ∧ (∀ facts field op value value',
       value ∈ forms_of_three → value' ∈ forms_of_three →
       evaluate_condition facts [field; op; value]
         = evaluate_condition facts [field; op; value']).
Proof.
  split_and!.
  - apply evaluate_condition_coerces.
  - intros facts f op value x x' Hx Hx'.
    apply evaluate_condition_fact_float.
    by rewrite !float_forms_of_three.
  - intros facts field op value value' Hv Hv'.
    apply evaluate_condition_threshold_float.
    by rewrite !float_forms_of_three.
Qed.

(** C2. A condition whose field is a list or a dictionary is a [List[Any]]
    of length 3, yet the evaluator raises [TypeError] on it: the membership
    test hashes the field outside the [try] block. So it is for
    [[[], ">=", 3]], and the exception leaves [rule_matches] and
    [run_rules] as well. *)
Theorem evaluate_condition_unhashable_field_raises facts :
  (∀ l op value, evaluate_condition facts [PList l; op; value] = Raise TypeError)
  ∧ (∀ d op value, evaluate_condition facts [PDict d; op; value] = Raise TypeError)
  ∧ evaluate_condition facts [PList []; PStr ">="; PInt 3] = Raise TypeError
  ∧ rule_matches facts
      (mkRule None None (Some [[PList []; PStr ">="; PInt 3]]) None)
    = Raise TypeError
  ∧ run_rules facts
      [mkRule None None (Some [[PList []; PStr ">="; PInt 3]]) None]
    = Raise TypeError.
Proof. by split_and!. Qed.

(** ** The default rule set on concrete applicants *)

(** C7. For CGPA 3.8, score 85, income 7000 and no disciplinary action the
    default rule set fires the top-merit rule (priority 100) and the
    partial-scholarship rule (priority 80); the decision is [AWARD FULL],
    the action of the rule of highest priority. *)
Theorem default_rules_award_full :
  ∃ top partial,
    SCHOLARSHIP_RULES !! 0%nat = Some top
    ∧ SCHOLARSHIP_RULES !! 3%nat = Some partial
    ∧ priority top = Some 100
    ∧ priority partial = Some 80
    ∧ filter (fires (applicant 380 7000 85 0)) SCHOLARSHIP_RULES = [top; partial]
    ∧ run_rules (applicant 380 7000 85 0) SCHOLARSHIP_RULES
      = Ok (mk_action "AWARD FULL"
              "Excellent academic & co-curricular performance, with acceptable need",
            [top; partial]).
Proof.
  eexists _, _. split_and!; try reflexivity; by vm_compute.
Qed.

(** ** The engine on the object store: nothing is overwritten *)

Lemma grows_ret {A} (a : A) : grows (mret a).
Proof. by intros h. Qed.

Lemma grows_raise {A} e : grows (st_raise (A:=A) e).
Proof. by intros h. Qed.

Lemma grows_lift {A} (r : result A) : grows (lift r).
Proof. by intros h. Qed.

Lemma grows_alloc o : grows (alloc o).
Proof.
  intros h. simpl. apply insert_subseteq, not_elem_of_dom, is_fresh.
Qed.

Lemma grows_read l : grows (read l).
Proof. intros h. unfold read. by destruct (h !! l). Qed.

Lemma grows_bind {A B} (m : St A) (k : A → St B) :
  grows m → (∀ a, grows (k a)) → grows (m ≫= k).
Proof.
  intros Hm Hk h. unfold mbind, st_mbind, st_bind.
  specialize (Hm h). destruct (m h) as [[a|e] h']; simpl in *; [|done].
  etrans; [exact Hm|apply Hk].
Qed.

Lemma grows_try {A} (body : St A) handler :
  grows body → grows (try_except_at body handler).
Proof.
  intros Hb h. unfold try_except_at. specialize (Hb h).
  by destruct (body h) as [[a|e] h'].
Qed.

Ltac grows :=
  repeat first
    [ assumption
    | apply grows_ret | apply grows_raise | apply grows_lift
    | apply grows_alloc | apply grows_read | apply grows_try
    | apply grows_bind; [|intros ?]
    | match goal with
      | |- grows (match ?x with _ => _ end) => destruct x
      end ].

Lemma grows_evaluate_condition_at facts cond :
  grows (evaluate_condition_at facts cond).
Proof.
  unfold evaluate_condition_at, len_at, contains_at, getitem_at,
    read_list, read_dict. grows.
Qed.

Lemma grows_all_at {A} (f : A → St bool) l :
  (∀ x, grows (f x)) → grows (all_at f l).
Proof. intros Hf. induction l; simpl; grows. apply Hf. Qed.

Lemma grows_comprehension_at {A} (f : A → St bool) l :
  (∀ x, grows (f x)) → grows (comprehension_at f l).
Proof. intros Hf. induction l; simpl; grows. apply Hf. Qed.

Lemma grows_rule_matches_at facts rule : grows (rule_matches_at facts rule).
Proof.
  unfold rule_matches_at, get_conditions, read_refs. grows.
  apply grows_all_at. intros c. apply grows_evaluate_condition_at.
Qed.

Lemma grows_keys_at l : grows (keys_at l).
Proof. induction l; simpl; unfold get_priority; grows. Qed.

Lemma grows_run_rules_at facts rules : grows (run_rules_at facts rules).
Proof.
  unfold run_rules_at, sorted_at, get_action, read_refs. grows.
  - apply grows_comprehension_at. intros r. apply grows_rule_matches_at.
  - apply grows_keys_at.
Qed.

(** ** The engine on the object store: what it returns *)

Lemma cond_at_weaken h h' l vs : h ⊆ h' → cond_at h l vs → cond_at h' l vs.
Proof. intros Hh Hc. by eapply lookup_weaken. Qed.

Lemma rule_at_weaken h h' l r : h ⊆ h' → rule_at h l r → rule_at h' l r.
Proof.
  intros Hh (c & a & Hl & Hc & Ha). exists c, a. split_and!.
  - by eapply lookup_weaken.
  - destruct c as [lc|], (conditions r) as [cs|]; try done.
    destruct Hc as (ls & Hlc & Hcs). exists ls. split.
    + by eapply lookup_weaken.
    + eapply Forall2_impl; [exact Hcs|]. intros ??. by apply cond_at_weaken.
  - destruct a as [la|], (action r) as [d|]; try done.
    by eapply lookup_weaken.
Qed.

Lemma rules_at_weaken h h' l rs : h ⊆ h' → rules_at h l rs → rules_at h' l rs.
Proof.
  intros Hh (ls & Hl & Hrs). exists ls. split; [by eapply lookup_weaken|].
  eapply Forall2_impl; [exact Hrs|]. intros ??. by apply rule_at_weaken.
Qed.

Lemma bind_run {A B} (m : St A) (k : A → St B) h :
  (m ≫= k) h = match m h with
               | (Ok a, h') => k a h'
               | (Raise e, h') => (Raise e, h')
               end.
Proof. done. Qed.

Lemma read_run h l o : h !! l = Some o → read l h = (Ok o, h).
Proof. intros H. unfold read. by rewrite H. Qed.

Lemma read_dict_run h l d : h !! l = Some (ODict d) → read_dict l h = (Ok d, h).
Proof. intros H. unfold read_dict. by rewrite bind_run, (read_run _ _ _ H). Qed.

Lemma read_list_run h l vs :
  h !! l = Some (OList vs) → read_list l h = (Ok vs, h).
Proof. intros H. unfold read_list. by rewrite bind_run, (read_run _ _ _ H). Qed.

Lemma read_refs_run h l ls :
  h !! l = Some (ORefs ls) → read_refs l h = (Ok ls, h).
Proof. intros H. unfold read_refs. by rewrite bind_run, (read_run _ _ _ H). Qed.

Lemma evaluate_condition_at_run h facts fs c vs :
  h !! facts = Some (ODict fs) → cond_at h c vs →
  evaluate_condition_at facts c h = (evaluate_condition fs vs, h).
Proof.
  intros Hf Hc. unfold evaluate_condition_at, evaluate_condition, len_at.
  rewrite !bind_run, (read_list_run _ _ _ Hc). simpl.
  destruct (negb (length vs =? 3)%nat); [done|].
  rewrite bind_run, (read_list_run _ _ _ Hc).
  destruct vs as [|field [|op [|value [|extra vs]]]]; try done.
  unfold contains_at, getitem_at.
  rewrite !bind_run, (read_dict_run _ _ _ Hf). unfold lift at 1.
  destruct (contains fs field) as [[]|e]; simpl; try done.
  rewrite bind_run. unfold lift at 1.
  destruct (contains OPS op) as [[]|e]; simpl; try done.
  unfold try_except_at, try_except. rewrite bind_run. unfold lift at 1.
  destruct (getitem OPS op) as [f|e]; simpl; [|done].
  rewrite !bind_run, (read_dict_run _ _ _ Hf). unfold lift at 1.
  destruct (getitem fs field) as [x|e]; simpl; [|done].
  rewrite bind_run. unfold lift at 1.
  destruct (float x) as [a|e]; simpl; [|done].
  rewrite bind_run. unfold lift at 1.
  by destruct (float value) as [b|e].
Qed.

Lemma all_at_run h facts fs ls cs :
  h !! facts = Some (ODict fs) → Forall2 (cond_at h) ls cs →
  all_at (evaluate_condition_at facts) ls h
    = (all (evaluate_condition fs) cs, h).
Proof.
  intros Hf Hcs. induction Hcs as [|l vs ls cs Hl _ IH]; simpl; [done|].
  rewrite bind_run, (evaluate_condition_at_run _ _ _ _ _ Hf Hl).
  by destruct (evaluate_condition fs vs) as [[]|e].
Qed.

Lemma alloc_run o h :
  alloc o h = (Ok (fresh (dom h)), <[fresh (dom h) := o]> h)
  ∧ h !! fresh (dom h) = None.
Proof. split; [done|]. apply not_elem_of_dom, is_fresh. Qed.

Lemma rule_matches_at_run h facts fs l r :
  h !! facts = Some (ODict fs) → rule_at h l r →
  (rule_matches_at facts l h).1 = rule_matches fs r.
Proof.
  intros Hf (c & a & Hl & Hc & _). unfold rule_matches_at, rule_matches.
  destruct (alloc_run (ORefs []) h) as [Ha Hfresh].
  rewrite bind_run, Ha.
  set (e := fresh (dom h)) in *. set (h1 := <[e := ORefs []]> h).
  assert (h ⊆ h1) as Hh by (by apply insert_subseteq).
  unfold get_conditions. rewrite !bind_run.
  rewrite (read_run h1 l _ (lookup_weaken _ _ _ _ Hl Hh)). simpl.
  destruct c as [lc|], (conditions r) as [cs|]; try done; simpl;
    rewrite bind_run.
  - destruct Hc as (ls & Hlc & Hcs).
    rewrite (read_refs_run h1 lc ls (lookup_weaken _ _ _ _ Hlc Hh)).
    rewrite (all_at_run h1 facts fs ls cs); [done| |].
    + by eapply lookup_weaken.
    + eapply Forall2_impl; [exact Hcs|]. intros ??. by apply cond_at_weaken.
  - rewrite (read_refs_run h1 e []); [done|]. apply lookup_insert_eq.
Qed.

Lemma comprehension_at_run (R : nat → Rule → Prop) h facts fs ls rs :
  h !! facts = Some (ODict fs) →
  Forall2 (rule_at h) ls rs → Forall2 R ls rs →
  match (comprehension_at (rule_matches_at facts) ls h).1 with
  | Ok items =>
      ∃ fired, comprehension (rule_matches fs) rs = Ok fired
               ∧ Forall2 R items fired
  | Raise e => comprehension (rule_matches fs) rs = Raise e
  end.
Proof.
  intros Hf Hrs HR. revert h Hf Hrs.
  induction HR as [|l r ls rs Hl _ IH]; intros h Hf Hrs; simpl.
  { by exists []. }
  apply Forall2_cons in Hrs as [Hr Hrs].
  rewrite bind_run.
  pose proof (rule_matches_at_run h facts fs l r Hf Hr) as Hm.
  pose proof (grows_rule_matches_at facts l h) as Hg.
  destruct (rule_matches_at facts l h) as [res h1]. simpl in Hm, Hg.
  rewrite <-Hm. destruct res as [b|e]; simpl; [|done].
  rewrite bind_run.
  assert (h1 !! facts = Some (ODict fs)) as Hf1 by (by eapply lookup_weaken).
  assert (Forall2 (rule_at h1) ls rs) as Hrs1.
  { eapply Forall2_impl; [exact Hrs|]. intros ??. by apply rule_at_weaken. }
  specialize (IH h1 Hf1 Hrs1).
  destruct (comprehension_at (rule_matches_at facts) ls h1) as [[items|e] h2];
    simpl in *.
  - destruct IH as (fired & -> & Hfired). simpl.
    destruct b; eexists; (split; [done|]); [by constructor|done].
  - by rewrite IH.
Qed.

Lemma keys_at_run h items fired :
  Forall2 (rule_at h) items fired →
  ∃ ks, keys_at items h = (Ok ks, h)
        ∧ Forall2 (λ kl r, kl.1 = priority_key r ∧ rule_at h kl.2 r) ks fired.
Proof.
  induction 1 as [|l r items fired Hr _ (ks & IH & Hks)]; simpl.
  { by exists []. }
  destruct Hr as (c & a & Hl & Hca).
  exists ((priority_key r, l) :: ks). split.
  - unfold get_priority. rewrite !bind_run, (read_run _ _ _ Hl). simpl.
    by rewrite bind_run, IH.
  - constructor; [|done]. split; [done|]. by exists c, a.
Qed.

Section SortedRelated.
Context {A B : Type} (keyA : A → Z) (keyB : B → Z) (R : A → B → Prop).
Hypothesis R_key : ∀ x y, R x y → keyA x = keyB y.

Lemma insert_by_related x y l k :
  R x y → Forall2 R l k →
  Forall2 R (insert_by keyA x l) (insert_by keyB y k).
Proof.
  intros Hxy. induction 1 as [|x' y' l k Hxy' Hlk IH]; simpl.
  { by repeat constructor. }
  rewrite (R_key _ _ Hxy), (R_key _ _ Hxy').
  destruct (keyB y' <? keyB y); by repeat constructor.
Qed.

Lemma sort_by_related l k :
  Forall2 R l k → Forall2 R (sort_by keyA l) (sort_by keyB k).
Proof.
  unfold sort_by. induction 1; simpl; [constructor|].
  by apply insert_by_related.
Qed.

Lemma sorted_related rv l k :
  Forall2 R l k → Forall2 R (sorted keyA rv l) (sorted keyB rv k).
Proof.
  intros H. destruct rv; unfold sorted; [|by apply sort_by_related].
  by apply Forall2_reverse, sort_by_related, Forall2_reverse.
Qed.
End SortedRelated.

Lemma sorted_at_run h l items fired :
  h !! l = Some (ORefs items) → Forall2 (rule_at h) items fired →
  ∃ ss, sorted_at l h
          = (Ok (fresh (dom h)), <[fresh (dom h) := ORefs ss]> h)
        ∧ Forall2 (rule_at h) ss (sorted priority_key true fired).
Proof.
  intros Hl Hitems. unfold sorted_at.
  destruct (keys_at_run h items fired Hitems) as (ks & Hks & Hrel).
  exists (snd <$> sorted fst true ks). split.
  - by rewrite bind_run, (read_refs_run _ _ _ Hl), bind_run, Hks.
  - apply Forall2_fmap_l.
    eapply Forall2_impl.
    + apply (sorted_related fst priority_key
               (λ kl r, kl.1 = priority_key r ∧ rule_at h kl.2 r));
        [by intros ?? [? _]|done].
    + by intros ?? [_ ?].
Qed.

(** The engine on the store returns what [run_rules] returns on the contents
    of the fact set and of the rule set. *)
Lemma run_rules_at_run h facts fs rules rs :
  h !! facts = Some (ODict fs) → rules_at h rules rs →
  outcome_at (run_rules_at facts rules h) (run_rules fs rs).
Proof.
  intros Hf (ls & Hrules & Hrs). unfold run_rules_at, run_rules.
  rewrite bind_run, (read_refs_run _ _ _ Hrules), bind_run.
  pose proof (comprehension_at_run (rule_at h) h facts fs ls rs Hf Hrs Hrs)
    as Hc.
  pose proof (grows_comprehension_at (rule_matches_at facts) ls
                (grows_rule_matches_at facts) h) as Hg.
  destruct (comprehension_at (rule_matches_at facts) ls h)
    as [[items|e] h1]; simpl in Hc, Hg; [|by rewrite Hc].
  destruct Hc as (fired & -> & Hfired). simpl.
  rewrite bind_run.
  destruct (alloc_run (ORefs items) h1) as [-> Hfresh1].
  set (lf := fresh (dom h1)) in *. set (h2 := <[lf := ORefs items]> h1).
  assert (h1 ⊆ h2) as Hh2 by (by apply insert_subseteq).
  destruct Hfired as [|i r items fired Hi Hfired].
  - rewrite bind_run.
    destruct (alloc_run (ODict no_match_action) h2) as [-> Hfresh2].
    set (la := fresh (dom h2)) in *.
    set (h3 := <[la := ODict no_match_action]> h2).
    rewrite bind_run.
    destruct (alloc_run (ORefs []) h3) as [-> Hfresh3].
    set (le := fresh (dom h3)) in *.
    unfold outcome_at; simpl. split.
    + rewrite lookup_insert_ne; [apply lookup_insert_eq|].
      intros ->. unfold h3 in Hfresh3. by rewrite lookup_insert_eq in Hfresh3.
    + exists []. split; [apply lookup_insert_eq|constructor].
  - assert (Forall2 (rule_at h2) (i :: items) (r :: fired)) as Hfired2.
    { eapply Forall2_impl; [by constructor|]. intros ?? H.
      eapply rule_at_weaken; [|exact H]. by etrans. }
    destruct (sorted_at_run h2 lf (i :: items) (r :: fired)) as (ss & Hs & Hss);
      [apply lookup_insert_eq|done|].
    rewrite bind_run, Hs.
    set (lsrt := fresh (dom h2)) in *. set (h3 := <[lsrt := ORefs ss]> h2).
    assert (h2 !! lsrt = None) as Hfresh2 by apply not_elem_of_dom, is_fresh.
    assert (h2 ⊆ h3) as Hh3 by (by apply insert_subseteq).
    rewrite bind_run, (read_refs_run h3 lsrt ss) by apply lookup_insert_eq.
    destruct Hss as [|first first' ss srt Hfirst Hss]; [done|].
    rewrite bind_run.
    destruct (alloc_run (ODict no_action_action) h3) as [-> Hfresh3].
    set (ld := fresh (dom h3)) in *.
    set (h4 := <[ld := ODict no_action_action]> h3).
    assert (h3 ⊆ h4) as Hh4 by (by apply insert_subseteq).
    assert (h2 ⊆ h4) as Hh24 by (by etrans).
    pose proof (rule_at_weaken _ _ _ _ Hh24 Hfirst) as (c & a & Hl & _ & Ha).
    unfold get_action. rewrite !bind_run, (read_run _ _ _ Hl). simpl.
    unfold outcome_at; simpl. split.
    + destruct a as [la|], (action first') as [d|]; try done.
      apply lookup_insert_eq.
    + exists (first :: ss). split.
      * eapply lookup_weaken; [apply lookup_insert_eq|done].
      * eapply Forall2_impl; [by constructor|]. intros ??.
        by apply rule_at_weaken.
Qed.

Lemma cond_at_functional h l vs vs' :
  cond_at h l vs → cond_at h l vs' → vs = vs'.
Proof. unfold cond_at. congruence. Qed.

Lemma rule_at_functional h l r r' : rule_at h l r → rule_at h l r' → r = r'.
Proof.
  intros (c & a & Hl & Hc & Ha) (c' & a' & Hl' & Hc' & Ha').
  rewrite Hl in Hl'. destruct r as [n p cs d], r' as [n' p' cs' d'].
  simpl in *. injection Hl' as <- <- <- <-. f_equal.
  - destruct c, cs, cs'; try done.
    destruct Hc as (ls & Hls & Hcs), Hc' as (ls' & Hls' & Hcs').
    rewrite Hls in Hls'. injection Hls' as <-. f_equal.
    eapply Forall2_unique; [exact Hcs|exact Hcs'|].
    intros ???. apply cond_at_functional.
  - destruct a, d, d'; try done. congruence.
Qed.

Lemma rules_at_functional h l rs rs' :
  rules_at h l rs → rules_at h l rs' → rs = rs'.
Proof.
  intros (ls & Hl & Hrs) (ls' & Hl' & Hrs').
  rewrite Hl in Hl'. injection Hl' as <-.
  eapply Forall2_unique; [exact Hrs|exact Hrs'|].
  intros ???. apply rule_at_functional.
Qed.

(** What a run returns decodes in one way only. *)
Lemma outcome_at_functional out r r' :
  outcome_at out r → outcome_at out r' → r = r'.
Proof.
  unfold outcome_at.
  destruct out.1 as [[a l]|e], r as [[d fired]|e1], r' as [[d' fired']|e2];
    try done; [|congruence].
  intros [Ha Hl] [Ha' Hl']. f_equal. f_equal; [congruence|].
  by eapply rules_at_functional.
Qed.

Lemma outcome_at_run_rules h facts fs rules rs r :
  h !! facts = Some (ODict fs) → rules_at h rules rs →
  outcome_at (run_rules_at facts rules h) r ↔ r = run_rules fs rs.
Proof.
  intros Hf Hrs. split.
  - intros Hr. eapply outcome_at_functional; [exact Hr|].
    by apply run_rules_at_run.
  - intros ->. by apply run_rules_at_run.
Qed.

(** The frame property is a property of a program, not of the monad: a
    program that drops or overwrites an object does not have it. *)
Lemma grows_not_every_program : ¬ ∀ m : St unit, grows m.
Proof.
  intros H. specialize (H (λ _, (Ok (), ∅)) {[ 0%nat := ORefs [] ]}).
  simpl in H. eapply (map_subseteq_spec _ _) in H; [|apply lookup_singleton_eq].
  by rewrite lookup_empty in H.
Qed.

(** C8. [run_rules] is a pure function of the contents of its two inputs.
    Run on any object store in which [facts] holds the fact set [fs] and
    [rules] the rule set [rs] (each rule, list of conditions, condition and
    action an object of the store, shared between rules or not), the engine
    leaves every object that the store held as it was, the fact set and the
    rule set in particular, and only creates objects. What it returns, an
    action with the fired list or an exception, is [run_rules fs rs] and
    nothing else, whatever the store and the addresses: a run on another
    store that holds equal inputs, and a second run on the store that the
    first one left, return the same. *)
Theorem run_rules_pure h h' facts facts' rules rules' fs rs :
  h !! facts = Some (ODict fs) → rules_at h rules rs →
  h' !! facts' = Some (ODict fs) → rules_at h' rules' rs →
  let out := run_rules_at facts rules h in
  let out' := run_rules_at facts' rules' h' in
  (∀ l o, h !! l = Some o → out.2 !! l = Some o)
  ∧ out.2 !! facts = Some (ODict fs)
  ∧ rules_at out.2 rules rs
  ∧ (∀ r, outcome_at out r ↔ r = run_rules fs rs)
  ∧ (∀ r, outcome_at out' r ↔ r = run_rules fs rs)
  ∧ (∀ r, outcome_at (run_rules_at facts rules out.2) r ↔ r = run_rules fs rs).
Proof.
  intros Hf Hrs Hf' Hrs' out out'.
  pose proof (grows_run_rules_at facts rules h) as Hg. fold out in Hg.
  assert (out.2 !! facts = Some (ODict fs)) as Hf2
    by (by eapply lookup_weaken).
  assert (rules_at out.2 rules rs) as Hrs2 by (by eapply rules_at_weaken).
  split_and!; try done.
  - intros l o Hl. by eapply lookup_weaken.
  - intros r. by apply outcome_at_run_rules.
  - intros r. by apply outcome_at_run_rules.
  - intros r. by apply outcome_at_run_rules.
Qed.

(** ** Concrete instances *)

(** Every hypothesis of the statements above is met by some input. *)

Lemma run_rules_sorted_by_priority_witness :
  Forall (λ r, returns (rule_matches (applicant 380 7000 85 0) r)) sample_rules
  ∧ filter (fires (applicant 380 7000 85 0)) sample_rules
    = [merit_rule; best_rule; need_rule]
  ∧ filter (fires (applicant 380 7000 85 0)) sample_rules ≠ []
  ∧ run_rules (applicant 380 7000 85 0) sample_rules
    = Ok (mk_action "AWARD FULL" "best", [best_rule; merit_rule; need_rule])
  ∧ ∃ first rest,
      run_rules (applicant 380 7000 85 0) sample_rules
        = Ok (default no_action_action (action first), first :: rest)
      ∧ first :: rest ≡ₚ filter (fires (applicant 380 7000 85 0)) sample_rules
      ∧ Sorted (λ a b, default 0 (priority b) ≤ default 0 (priority a))
          (first :: rest)
      ∧ Forall (λ r, default 0 (priority r) ≤ default 0 (priority first)) rest
      ∧ (∀ p, filter (λ r, default 0 (priority r) = p) (first :: rest)
              = filter (λ r, default 0 (priority r) = p)
                  (filter (fires (applicant 380 7000 85 0)) sample_rules))
      ∧ (∀ a b, [a; b] `sublist_of` sample_rules →
                fires (applicant 380 7000 85 0) a →
                fires (applicant 380 7000 85 0) b →
                default 0 (priority a) = default 0 (priority b) →
                [a; b] `sublist_of` first :: rest)
      ∧ (∀ a, action first = Some a →
              run_rules (applicant 380 7000 85 0) sample_rules
                = Ok (a, first :: rest)).
Proof.
  assert (Forall (λ r, returns (rule_matches (applicant 380 7000 85 0) r))
            sample_rules) as Hret
    by (apply (bool_decide_unpack _); vm_compute; exact I).
  assert (filter (fires (applicant 380 7000 85 0)) sample_rules
            = [merit_rule; best_rule; need_rule]) as Hf
    by (by vm_compute).
  assert (filter (fires (applicant 380 7000 85 0)) sample_rules ≠ []) as Hne
    by (rewrite Hf; discriminate).
  assert (run_rules (applicant 380 7000 85 0) sample_rules
            = Ok (mk_action "AWARD FULL" "best",
                  [best_rule; merit_rule; need_rule])) as Hrun
    by (by vm_compute).
  split_and!; [exact Hret | exact Hf | exact Hne | exact Hrun |].
  exact (run_rules_sorted_by_priority _ _ Hret Hne).
Defined.

Lemma run_rules_no_match_witness :
  Forall (λ r, rule_matches (applicant 300 50000 10 0) r = Ok false) SCHOLARSHIP_RULES
  ∧ run_rules (applicant 300 50000 10 0) SCHOLARSHIP_RULES
    = Ok (mk_action "REJECT" "No rule criteria matched for an award or review", []).
Proof.
  assert (Forall (λ r, rule_matches (applicant 300 50000 10 0) r = Ok false)
            SCHOLARSHIP_RULES) as Hno
    by (apply (bool_decide_unpack _); vm_compute; exact I).
  split; [exact Hno|]. exact (run_rules_no_match _ _ Hno).
Defined.

Lemma run_rules_missing_action_witness :
  Forall (λ r, returns (rule_matches ∅ r)) [bare_rule]
  ∧ sorted priority_key true (filter (fires ∅) [bare_rule]) = [bare_rule]
  ∧ (action bare_rule = None →
       run_rules ∅ [bare_rule]
         = Ok (mk_action "REVIEW" "Matched rule has no defined action", [bare_rule]))
  ∧ (∀ a, action bare_rule = Some a →
       run_rules ∅ [bare_rule] = Ok (a, [bare_rule])).
Proof.
  assert (Forall (λ r, returns (rule_matches ∅ r)) [bare_rule]) as Hret
    by (apply (bool_decide_unpack _); vm_compute; exact I).
  assert (sorted priority_key true (filter (fires ∅) [bare_rule]) = [bare_rule])
    as Hs by (vm_compute; reflexivity).
  split_and!; [exact Hret | exact Hs | |];
    apply (run_rules_missing_action ∅ [bare_rule] bare_rule [] Hret Hs).
Defined.

Lemma rule_matches_all_conditions_witness :
  let rule := mkRule None None (Some [[PStr "age"; PStr ">="; PInt 18]]) None in
  [PStr "age"; PStr ">="; PInt 18] ∈ default [] (conditions rule)
  ∧ applicant 380 7000 85 0 !! "age"%string = None
  ∧ rule_matches (applicant 380 7000 85 0) rule ≠ Ok true.
Proof.
  intros rule.
  assert ([PStr "age"; PStr ">="; PInt 18] ∈ default [] (conditions rule))
    as Hin by (simpl; left).
  assert (applicant 380 7000 85 0 !! "age"%string = None) as Hf
    by (vm_compute; reflexivity).
  split_and!; [exact Hin | exact Hf |].
  exact (proj2 (proj2 (rule_matches_all_conditions (applicant 380 7000 85 0) rule))
           _ _ _ Hin Hf).
Defined.

Lemma evaluate_condition_numeric_coercion_witness :
  PInt 3 ∈ forms_of_three
  ∧ PStr "3" ∈ forms_of_three
  ∧ evaluate_condition (<["cgpa"%string:=PInt 3]> ∅)
      [PStr "cgpa"; PStr ">="; PFloat three]
    = evaluate_condition (<["cgpa"%string:=PStr "3"]> ∅)
        [PStr "cgpa"; PStr ">="; PFloat three].
Proof.
  assert (PInt 3 ∈ forms_of_three) as H1 by left.
  assert (PStr "3" ∈ forms_of_three) as H2 by (right; right; left).
  split_and!; [exact H1 | exact H2 |].
  exact (proj1 (proj2 evaluate_condition_numeric_coercion) _ _ _ _ _ _ H1 H2).
Defined.


(** The engine on two stores that hold the same facts and the same rule set
    at different addresses. The action returned is the action object of
    [best_rule] itself; the fired list is an object of its own. *)
Ltac held := vm_compute; reflexivity.
Ltac laid_out :=
  eexists; split; [held|];
  repeat (constructor;
          [eexists _, _; split_and!;
           [held
           |eexists; split; [held|repeat (constructor; [held|]); constructor]
           |held]|]);
  constructor.

Lemma run_rules_pure_witness :
  let fs := applicant 380 7000 85 0 in
  let h := sample_heap 0 in
  let h' := sample_heap 40 in
  let out := run_rules_at 0 18 h in
  let out' := run_rules_at 40 58 h' in
  (h !! 0%nat = Some (ODict fs) ∧ rules_at h 18 sample_rules
   ∧ h' !! 40%nat = Some (ODict fs) ∧ rules_at h' 58 sample_rules)
  ∧ ((∀ l o, h !! l = Some o → out.2 !! l = Some o)
     ∧ out.2 !! 0%nat = Some (ODict fs)
     ∧ rules_at out.2 18 sample_rules
     ∧ (∀ r, outcome_at out r ↔ r = run_rules fs sample_rules)
     ∧ (∀ r, outcome_at out' r ↔ r = run_rules fs sample_rules)
     ∧ (∀ r, outcome_at (run_rules_at 0 18 out.2) r
             ↔ r = run_rules fs sample_rules))
  ∧ run_rules fs sample_rules
    = Ok (mk_action "AWARD FULL" "best", [best_rule; merit_rule; need_rule])
  ∧ out.1 = Ok (12%nat, 25%nat) ∧ out'.1 = Ok (52%nat, 65%nat)
  ∧ out.2 !! 25%nat = Some (ORefs [13; 5; 17]%nat)
  ∧ dom out.2 = dom h ∪ list_to_set (seq 20 7).
Proof.
  assert (sample_heap 0 !! 0%nat = Some (ODict (applicant 380 7000 85 0)))
    as Hf by held.
  assert (sample_heap 40 !! 40%nat = Some (ODict (applicant 380 7000 85 0)))
    as Hf' by held.
  assert (rules_at (sample_heap 0) 18 sample_rules) as Hrs by laid_out.
  assert (rules_at (sample_heap 40) 58 sample_rules) as Hrs' by laid_out.
  split; [done|].
  split; [exact (run_rules_pure _ _ 0 40 18 58 _ _ Hf Hrs Hf' Hrs')|].
  clear. split_and!; held.
Defined.

(** Ties keep the order of the rule set, also next to a missing priority. *)
Example run_rules_tie_order :
  run_rules ∅ [plain_rule; zero_rule; high_rule]
    = Ok (no_action_action, [high_rule; plain_rule; zero_rule])
  ∧ run_rules ∅ [zero_rule; low_rule; plain_rule; high_rule]
    = Ok (no_action_action, [high_rule; zero_rule; plain_rule; low_rule]).
Proof. split; by vm_compute. Qed.

(** ** Where the code departs from the wording of the specification *)

(** C1, as stated, for every rule set: on the empty rule set the fired
    list has no first element and the decision is the action of no rule; on
    a rule without [action] the decision is not the action of the first
    fired rule, which has none; on a rule set with a condition whose field
    is a list nothing is returned. *)
Lemma run_rules_sorted_by_priority_counterexample :
  (run_rules ∅ [] = Ok (no_match_action, [])
   ∧ ¬ ∃ first rest a, run_rules ∅ [] = Ok (a, first :: rest))
  ∧ (run_rules ∅ [bare_rule] = Ok (no_action_action, [bare_rule])
     ∧ action bare_rule = None)
  ∧ (run_rules ∅ [unhashable_rule; bare_rule] = Raise TypeError
     ∧ ¬ ∃ a fired, run_rules ∅ [unhashable_rule; bare_rule] = Ok (a, fired)).
Proof.
  split_and!; try done.
  - by intros (first & rest & a & H).
  - by intros (a & fired & H).
Qed.

(** C3, as stated: the reason of the default action is not
    [no rule matched], however the decision label is spelled. *)
Lemma run_rules_no_match_reason_counterexample :
  (∃ a, run_rules ∅ [] = Ok (a, [])
        ∧ a !! "reason"%string
          = Some (PStr "No rule criteria matched for an award or review"))
  ∧ ∀ decision, run_rules ∅ [] ≠ Ok (mk_action decision "no rule matched", []).
Proof.
  split.
  - eexists. split; [reflexivity|]. by vm_compute.
  - intros decision H.
    apply (f_equal (λ r, match r with
                         | Ok (a, _) => a !! "reason"%string
                         | Raise _ => None
                         end)) in H.
    vm_compute in H. discriminate.
Qed.

(** C4, as stated: a rule whose action is the empty dictionary has no
    well-formed action (neither decision nor reason), and the engine returns
    that dictionary, not the default. *)
Lemma run_rules_empty_action_counterexample :
  let r := mkRule None None None (Some ∅) in
  filter (fires ∅) [r] = [r]
  ∧ action r = Some ∅
  ∧ (∅ : gmap string pyval) !! "decision"%string = None
  ∧ (∅ : gmap string pyval) !! "reason"%string = None
  ∧ run_rules ∅ [r] = Ok (∅, [r])
  ∧ run_rules ∅ [r] ≠ Ok (no_action_action, [r]).
Proof.
  intros r. split_and!; done.
Qed.

(** ** Further properties of the condition evaluator *)

Lemma OPS_lookup_cases o cmp :
  OPS !! o = Some cmp →
  (o = "==" ∧ cmp = operator_eq) ∨ (o = "!=" ∧ cmp = operator_ne)
  ∨ (o = ">" ∧ cmp = operator_gt) ∨ (o = ">=" ∧ cmp = operator_ge)
  ∨ (o = "<" ∧ cmp = operator_lt) ∨ (o = "<=" ∧ cmp = operator_le).
Proof.
  unfold OPS. rewrite !list_to_map_cons, list_to_map_nil.
  rewrite !lookup_insert_Some, lookup_empty. intros H.
  repeat (destruct H as [[<- <-]|[_ H]]; [tauto|]). done.
Qed.

Lemma contains_true_inv {V} (d : gmap string V) k :
  contains d k = Ok true → ∃ s v, k = PStr s ∧ d !! s = Some v.
Proof.
  destruct k as [| | | |s| |]; simpl; try done.
  intros [= [v Hv]%bool_decide_eq_true]. by exists s, v.
Qed.

Lemma contains_raise_inv {V} (d : gmap string V) k e :
  contains d k = Raise e → e = TypeError ∧ hashable k = false.
Proof. destruct k; simpl; by intros [= <-]. Qed.

Lemma contains_unhashable {V} (d : gmap string V) k :
  hashable k = false → contains d k = Raise TypeError.
Proof. by destruct k. Qed.

(** X1. On facts and a condition whose strings are ASCII, the condition
    holds exactly when it is a triple of a string field that the facts
    have, a string operator of [OPS], and a threshold, such that the fact's
    value and the threshold both coerce to a float and the operator holds
    of the two floats. *)
Theorem evaluate_condition_true_iff facts cond :
  map_Forall (λ _, ascii_text) facts →
  Forall ascii_text cond →
  evaluate_condition facts cond = Ok true ↔
  ∃ (f o : string) value x cmp a b,
    cond = [PStr f; PStr o; value]
    ∧ facts !! f = Some x ∧ OPS !! o = Some cmp
    ∧ float x = Ok a ∧ float value = Ok b ∧ cmp a b = true.
Proof.
  intros _ _. split.
  - unfold evaluate_condition.
    destruct cond as [|field [|op [|value [|extra cond]]]]; try done.
    cbn [length Nat.eqb negb].
    destruct (contains facts field) as [[]|] eqn:Hf; simpl; try done.
    destruct (contains OPS op) as [[]|] eqn:Ho; simpl; try done.
    apply contains_true_inv in Hf as (f & x & -> & Hx).
    apply contains_true_inv in Ho as (o & cmp & -> & Hcmp).
    unfold getitem. rewrite Hx, Hcmp. simpl.
    destruct (float x) as [a|] eqn:Ha; simpl; [|done].
    destruct (float value) as [b|] eqn:Hb; simpl; [|done].
    intros [= Hab]. by exists f, o, value, x, cmp, a, b.
  - intros (f & o & value & x & cmp & a & b & -> & Hx & Hcmp & Ha & Hb & Hab).
    rewrite (evaluate_condition_coerces _ _ _ _ _ _ Hx Hcmp), Ha, Hb.
    by rewrite Hab.
Qed.

(** X2. The evaluator raises only [TypeError], and exactly on a triple
    whose field is unhashable, or whose field is in the facts and whose
    operator is unhashable; an unhashable operator next to a field that the
    facts do not have is not looked at. *)
Theorem evaluate_condition_raises_iff facts cond e :
  evaluate_condition facts cond = Raise e ↔
  e = TypeError
  ∧ ∃ field op value,
      cond = [field; op; value]
      ∧ (hashable field = false
         ∨ (contains facts field = Ok true ∧ hashable op = false)).
Proof.
  split.
  - unfold evaluate_condition.
    destruct cond as [|field [|op [|value [|extra cond]]]]; try done.
    cbn [length Nat.eqb negb].
    destruct (contains facts field) as [[]|e1] eqn:Hf; simpl; try done.
    + destruct (contains OPS op) as [[]|e2] eqn:Ho; simpl; try done.
      intros [= <-]. apply contains_raise_inv in Ho as [-> Ho].
      split; [done|]. exists field, op, value. auto.
    + intros [= <-]. apply contains_raise_inv in Hf as [-> Hf].
      split; [done|]. exists field, op, value. auto.
  - intros (-> & field & op & value & -> & [Hf|[Hf Ho]]);
      unfold evaluate_condition; cbn [length Nat.eqb negb].
    + by rewrite (contains_unhashable _ _ Hf).
    + rewrite Hf. simpl. by rewrite (contains_unhashable _ _ Ho).
Qed.

(** ** Further properties of rule matching *)

Lemma all_not_true {A} (f : A → result bool) l r :
  r ≠ Ok true →
  all f l = r ↔
  ∃ pre x post, l = pre ++ x :: post
    ∧ Forall (λ y, f y = Ok true) pre ∧ f x = r.
Proof.
  intros Hr. induction l as [|y l IH]; simpl.
  - split; [by intros <-|]. by intros ([|??] & ? & ? & ? & _).
  - destruct (f y) as [[]|e] eqn:Hy; simpl.
    + rewrite IH. split.
      * intros (pre & x & post & -> & Hpre & Hx).
        exists (y :: pre), x, post. by repeat constructor.
      * intros ([|z pre] & x & post & [= <- Hl] & Hpre & Hx); simplify_eq.
        apply Forall_cons in Hpre as [_ Hpre]. by exists pre, x, post.
    + split.
      * intros <-. exists [], y, l. by repeat constructor.
      * intros ([|z pre] & x & post & [= <- Hl] & Hpre & Hx); [congruence|].
        apply Forall_cons in Hpre as [Hz _]. congruence.
    + split.
      * intros <-. exists [], y, l. by repeat constructor.
      * intros ([|z pre] & x & post & [= <- Hl] & Hpre & Hx); [congruence|].
        apply Forall_cons in Hpre as [Hz _]. congruence.
Qed.

(** X3. The outcome of a rule that does not match is that of its first
    condition that does not hold: [False] when that condition is false, the
    exception when it raises; the conditions after it are not evaluated. *)
Theorem rule_matches_first_failure facts rule r :
  r ≠ Ok true →
  rule_matches facts rule = r ↔
  ∃ pre cond post,
    default [] (conditions rule) = pre ++ cond :: post
    ∧ Forall (λ c, evaluate_condition facts c = Ok true) pre
    ∧ evaluate_condition facts cond = r.
Proof. intros Hr. unfold rule_matches. by apply all_not_true. Qed.

Lemma evaluate_condition_raise_type_error facts cond e :
  evaluate_condition facts cond = Raise e → e = TypeError.
Proof.
  unfold evaluate_condition.
  destruct cond as [|field [|op [|value [|extra cond]]]]; try done.
  cbn [length Nat.eqb negb].
  destruct (contains facts field) as [[]|e1] eqn:Hf; simpl; try done.
  - destruct (contains OPS op) as [[]|e2] eqn:Ho; simpl; try done.
    intros [= <-]. by apply contains_raise_inv in Ho as [-> _].
  - intros [= <-]. by apply contains_raise_inv in Hf as [-> _].
Qed.

Lemma rule_matches_raise_type_error facts rule e :
  rule_matches facts rule = Raise e → e = TypeError.
Proof.
  unfold rule_matches. intros H.
  apply all_not_true in H as (pre & cond & post & _ & _ & Hc); [|done].
  by eapply evaluate_condition_raise_type_error.
Qed.

Lemma comprehension_raise {A} (f : A → result bool) l e :
  comprehension f l = Raise e → ∃ x, x ∈ l ∧ f x = Raise e.
Proof.
  induction l as [|x l IH]; simpl; [done|].
  destruct (f x) as [b|e1] eqn:Hx; simpl.
  - destruct (comprehension f l) as [r|e2]; simpl; [done|].
    intros [= <-]. destruct (IH eq_refl) as (y & Hy & Hfy).
    exists y. split; [by right|done].
  - intros [= <-]. exists x. split; [by left|done].
Qed.

(** ** Further properties of resolution: exceptions *)

Lemma comprehension_first_raise {A} (f : A → result bool) before x after e :
  Forall (λ y, returns (f y)) before → f x = Raise e →
  comprehension f (before ++ x :: after) = Raise e.
Proof.
  intros Hb Hx. induction Hb as [|y before [b Hy] _ IH]; simpl.
  - by rewrite Hx.
  - by rewrite Hy, IH.
Qed.

(** X4. One rule whose matching raises makes the whole evaluation fail:
    [run_rules] raises, whatever the other rules of the rule set are and
    whether they fire, and the exception is that of the first rule of the
    rule set whose matching raises. *)
Theorem run_rules_propagates_raise facts rules r e :
  r ∈ rules → rule_matches facts r = Raise e →
  (∃ e', run_rules facts rules = Raise e')
  ∧ (∀ before after, rules = before ++ r :: after →
       Forall (λ r', returns (rule_matches facts r')) before →
       run_rules facts rules = Raise e).
Proof.
  intros Hr Hm. split.
  - unfold run_rules.
    destruct (comprehension (rule_matches facts) rules) as [fired|e1] eqn:Hc.
    + apply comprehension_returns in Hc. rewrite Forall_forall in Hc.
      destruct (Hc r Hr) as [b Hb]. congruence.
    + by exists e1.
  - intros before after -> Hb. unfold run_rules.
    by rewrite (comprehension_first_raise _ _ _ _ _ Hb Hm).
Qed.

(** X5. Matching a rule whose conditions all have a hashable field and a
    hashable operator (strings, as in the exchange format, or numbers or
    [None]) returns [True] or [False] on every fact set and raises nothing,
    whatever the length of the conditions and the values compared. *)
Theorem rule_matches_total_on_hashable facts rule :
  Forall (λ cond, ∀ field op value, cond = [field; op; value] →
            hashable field = true ∧ hashable op = true)
         (default [] (conditions rule)) →
  ∃ b, rule_matches facts rule = Ok b.
Proof.
  intros Hh. apply all_returns.
  eapply Forall_impl; [exact Hh|]. intros cond. apply evaluate_condition_returns.
Qed.

(** ** Further properties of the comparison *)

Lemma SFcompare_antisym a b :
  SFcompare b a = CompOpp <$> SFcompare a b.
Proof.
  destruct a as [sa|sa| |sa ma ea], b as [sb|sb| |sb mb eb]; simpl;
    try done; try (by destruct sa); try (by destruct sb);
    try (by destruct sa, sb).
  destruct sa, sb; simpl; try done;
    rewrite (Z.compare_antisym ea eb);
    destruct (ea ?= eb)%Z; simpl; try done;
    rewrite (Pos.compare_cont_antisym ma mb Eq); simpl;
    by rewrite ?CompOpp_involutive.
Qed.


Lemma evaluate_condition_unsupported facts (f o : string) value x :
  facts !! f = Some x → OPS !! o = None →
  evaluate_condition facts [PStr f; PStr o; value] = Ok false.
Proof.
  intros Hx Ho. unfold evaluate_condition, contains.
  cbn [length Nat.eqb negb]. rewrite Hx, Ho.
  rewrite (bool_decide_eq_true_2 (is_Some (Some x))) by (by eexists).
  rewrite (bool_decide_eq_false_2 (is_Some None)) by (by intros [? ?]).
  done.
Qed.

Lemma OPS_holds_of o cmp a b :
  OPS !! o = Some cmp → cmp a b = holds_of (SFcompare a b) o.
Proof.
  intros Hcmp.
  apply OPS_lookup_cases in Hcmp
    as [[-> ->]|[[-> ->]|[[-> ->]|[[-> ->]|[[-> ->]|[-> ->]]]]]];
    unfold operator_eq, operator_ne, operator_gt, operator_ge, operator_lt,
      operator_le, SFeqb, SFltb, SFleb, holds_of;
    rewrite ?(SFcompare_antisym a b);
    by destruct (SFcompare a b) as [[]|].
Qed.


(** X7. When the fact's value or the threshold, ASCII if a string, does
    not coerce to a float (a string that is no number, [None], a list, an
    integer beyond the doubles), the condition is false under every
    operator, [!=] included. *)
Theorem evaluate_condition_not_a_number facts (f o : string) value x :
  facts !! f = Some x →
  ascii_text x → ascii_text value →
  (∀ a, float x ≠ Ok a) ∨ (∀ b, float value ≠ Ok b) →
  evaluate_condition facts [PStr f; PStr o; value] = Ok false.
Proof.
  intros Hx _ _ Hnan. destruct (OPS !! o) as [cmp|] eqn:Hcmp.
  - rewrite (evaluate_condition_coerces _ _ _ _ _ _ Hx Hcmp).
    destruct (float x) as [a|]; [|done].
    destruct (float value) as [b|]; [|done].
    destruct Hnan as [H|H]; [by destruct (H a)|by destruct (H b)].
  - by eapply evaluate_condition_unsupported.
Qed.

(** ** Further properties of [sorted] *)

Section SortedMore.
Context {A : Type} (key : A → Z).

#[local] Instance asc_transitive : Transitive (asc key).
Proof. intros a b c. unfold asc. lia. Qed.

#[local] Instance desc_transitive : Transitive (desc key).
Proof. intros a b c. unfold desc. lia. Qed.

Lemma insert_by_least x l :
  Forall (λ z, key x ≤ key z) l → insert_by key x l = x :: l.
Proof.
  destruct 1 as [|y l Hy _]; simpl; [done|].
  destruct (key y <? key x) eqn:E; [lia|done].
Qed.

Lemma sort_by_sorted_id l : Sorted (asc key) l → sort_by key l = l.
Proof.
  intros Hs. apply (Sorted_StronglySorted _) in Hs.
  induction Hs as [|x l _ IH Hx]; unfold sort_by in *; simpl; [done|].
  rewrite IH. by apply insert_by_least.
Qed.

Lemma sorted_desc_id l : Sorted (desc key) l → sorted key true l = l.
Proof.
  intros Hs. unfold sorted.
  rewrite sort_by_sorted_id; [apply reverse_involutive|].
  by apply (Sorted_reverse (desc key)) in Hs.
Qed.

Lemma Forall_filter_keep (P Q : A → Prop) `{!∀ x, Decision (P x)} l :
  Forall Q l → Forall Q (filter P l).
Proof.
  rewrite !Forall_forall. intros HQ x [_ Hx]%list_elem_of_filter. by apply HQ.
Qed.

Lemma insert_by_filter_sorted (P : A → Prop) `{!∀ x, Decision (P x)} x l :
  StronglySorted (asc key) l →
  filter P (insert_by key x l)
    = if decide (P x) then insert_by key x (filter P l) else filter P l.
Proof.
  induction 1 as [|y l Hl IH Hy]; simpl.
  - rewrite filter_cons, filter_nil. by case_decide.
  - destruct (key y <? key x) eqn:E.
    + rewrite !(filter_cons _ y), IH.
      destruct (decide (P y)), (decide (P x)); simpl; by rewrite ?E.
    + rewrite (filter_cons _ x). destruct (decide (P x)); [|done].
      symmetry. apply insert_by_least, Forall_filter_keep.
      constructor; [lia|].
      eapply Forall_impl; [exact Hy|]. unfold asc. intros z. simpl. lia.
Qed.

Lemma sort_by_filter_comm (P : A → Prop) `{!∀ x, Decision (P x)} l :
  filter P (sort_by key l) = sort_by key (filter P l).
Proof.
  induction l as [|x l IH]; [done|].
  change (sort_by key (x :: l)) with (insert_by key x (sort_by key l)).
  rewrite insert_by_filter_sorted, IH, filter_cons.
  - by destruct (decide (P x)).
  - apply (Sorted_StronglySorted _), sort_by_sorted.
Qed.

Lemma sorted_filter_comm (P : A → Prop) `{!∀ x, Decision (P x)} rv l :
  filter P (sorted key rv l) = sorted key rv (filter P l).
Proof.
  destruct rv; unfold sorted; [|apply sort_by_filter_comm].
  by rewrite filter_reverse, sort_by_filter_comm, filter_reverse.
Qed.

Lemma sorted_idempotent l :
  sorted key true (sorted key true l) = sorted key true l.
Proof. apply sorted_desc_id, sorted_reverse_desc. Qed.

(** The element that no earlier one reaches and no later one exceeds comes
    first. *)
Lemma sorted_head pre r post :
  Forall (λ x, key x < key r) pre →
  Forall (λ x, key x ≤ key r) post →
  ∃ rest, sorted key true (pre ++ r :: post) = r :: rest.
Proof.
  intros Hpre Hpost.
  pose proof (sorted_perm key true (pre ++ r :: post)) as Hp.
  pose proof (sorted_reverse_desc key (pre ++ r :: post)) as Hs.
  pose proof (sorted_stable key true (key r) (pre ++ r :: post)) as Hst.
  destruct (sorted key true (pre ++ r :: post)) as [|first rest] eqn:E.
  { apply Permutation_nil_l in Hp. by destruct pre. }
  exists rest. f_equal.
  assert (key first ≤ key r) as H1.
  { assert (first ∈ pre ++ r :: post) as Hin by (rewrite <-Hp; by left).
    apply elem_of_app in Hin as [Hin|Hin].
    - rewrite Forall_forall in Hpre. specialize (Hpre _ Hin). lia.
    - apply elem_of_cons in Hin as [->|Hin]; [lia|].
      rewrite Forall_forall in Hpost. by apply Hpost. }
  assert (key r ≤ key first) as H2.
  { assert (r ∈ first :: rest) as Hin.
    { rewrite Hp. apply elem_of_app. right. by left. }
    apply elem_of_cons in Hin as [->|Hin]; [lia|].
    apply desc_head_max in Hs. rewrite Forall_forall in Hs. by apply Hs. }
  rewrite filter_cons_True in Hst by lia.
  rewrite filter_app, filter_cons_True in Hst by done.
  assert (filter (λ y, key y = key r) pre = []) as Hnil.
  { clear -Hpre. induction Hpre as [|y l Hy _ IH]; [done|].
    rewrite filter_cons_False by lia. done. }
  rewrite Hnil in Hst. simpl in Hst. congruence.
Qed.

End SortedMore.

Lemma Forall_filter_impl {A} (P Q : A → Prop) `{!∀ x, Decision (P x)} l :
  Forall (λ x, P x → Q x) l → Forall Q (filter P l).
Proof.
  rewrite !Forall_forall. intros HQ x [HP Hx]%list_elem_of_filter. by apply HQ.
Qed.

Lemma filter_all {A} (P : A → Prop) `{!∀ x, Decision (P x)} l :
  Forall P l → filter P l = l.
Proof.
  induction 1 as [|x l Hx _ IH]; [done|].
  by rewrite filter_cons_True, IH.
Qed.

Lemma all_ext {A} (f g : A → result bool) l :
  Forall (λ x, f x = g x) l → all f l = all g l.
Proof. induction 1 as [|x l Hx _ IH]; simpl; [done|]. by rewrite Hx, IH. Qed.

Lemma comprehension_ext {A} (f g : A → result bool) l :
  Forall (λ x, f x = g x) l → comprehension f l = comprehension g l.
Proof. induction 1 as [|x l Hx _ IH]; simpl; [done|]. by rewrite Hx, IH. Qed.

Lemma evaluate_condition_ext facts facts' cond :
  (∀ (f : string) op value, cond = [PStr f; op; value] →
     facts !! f = facts' !! f) →
  evaluate_condition facts cond = evaluate_condition facts' cond.
Proof.
  intros Hsame. unfold evaluate_condition.
  destruct cond as [|field [|op [|value [|extra cond]]]]; try done.
  destruct field as [| | | |f| |]; try done.
  unfold contains, getitem. cbn [length Nat.eqb negb].
  by rewrite (Hsame f op value eq_refl).
Qed.

(** ** Further properties of resolution: who wins *)

(** X8. The decision is that of the firing rule which every firing rule
    before it in the rule set is strictly below in priority and which no
    firing rule after it exceeds: the highest priority wins, and among
    firing rules of the highest priority the first of the rule set. *)
Theorem run_rules_winner facts pre r post :
  Forall (λ x, returns (rule_matches facts x)) (pre ++ r :: post) →
  fires facts r →
  Forall (λ x, fires facts x → priority_key x < priority_key r) pre →
  Forall (λ x, fires facts x → priority_key x ≤ priority_key r) post →
  ∃ rest,
    run_rules facts (pre ++ r :: post)
      = Ok (default no_action_action (action r), r :: rest).
Proof.
  intros Hret Hr Hpre Hpost. rewrite (run_rules_fired _ _ Hret). simpl.
  rewrite filter_app, filter_cons_True by done.
  destruct (sorted_head priority_key (filter (fires facts) pre) r
              (filter (fires facts) post)) as [rest ->].
  - by apply Forall_filter_impl.
  - by apply Forall_filter_impl.
  - by exists rest.
Qed.



(** X11. Evaluating the fired list again gives the same decision and the
    same fired list: every rule of it fires, and it is in order. *)
Theorem run_rules_idempotent facts rules a fired :
  run_rules facts rules = Ok (a, fired) →
  run_rules facts fired = Ok (a, fired).
Proof.
  intros Hrun. pose proof Hrun as [Hret ->]%run_rules_inv.
  rewrite (run_rules_fired _ _ Hret) in Hrun. simpl in Hrun.
  injection Hrun as <-.
  assert (Forall (fires facts)
            (sorted priority_key true (filter (fires facts) rules))) as Hf.
  { rewrite sorted_perm. apply Forall_forall.
    by intros x [Hx _]%list_elem_of_filter. }
  assert (Forall (λ r, returns (rule_matches facts r))
            (sorted priority_key true (filter (fires facts) rules))) as Hret'.
  { eapply Forall_impl; [exact Hf|]. intros x Hx. by exists true. }
  rewrite (run_rules_fired _ _ Hret'). simpl.
  by rewrite (filter_all _ _ Hf), sorted_idempotent.
Qed.

(** X12. The engine reads the facts only at the fields that the conditions
    of the rule set name: two fact sets that agree on these fields get the
    same result, whatever else they hold. *)
Theorem run_rules_facts_frame facts facts' rules :
  (∀ r cond (f : string) op value,
     r ∈ rules → cond ∈ default [] (conditions r) →
     cond = [PStr f; op; value] → facts !! f = facts' !! f) →
  run_rules facts rules = run_rules facts' rules.
Proof.
  intros Hsame. unfold run_rules.
  rewrite (comprehension_ext (rule_matches facts) (rule_matches facts')); [done|].
  apply Forall_forall. intros r Hr. unfold rule_matches.
  apply all_ext, Forall_forall. intros cond Hc.
  apply evaluate_condition_ext. intros f op value ->.
  by eapply Hsame.
Qed.

(** ** The display helpers *)

Lemma display_each_ok conditions out :
  Forall (λ cond, length cond = 3%nat) conditions →
  display_each conditions out = (Ok (), out ++ (line_of <$> conditions)).
Proof.
  intros Hlen. revert out.
  induction Hlen as [|cond rest Hc _ IH]; intros out; csimpl.
  - by rewrite app_nil_r.
  - destruct cond as [|field [|op [|value [|extra cond]]]]; try done.
    rewrite IH. by rewrite <-app_assoc.
Qed.

Lemma display_each_bad pre bad post out :
  Forall (λ cond, length cond = 3%nat) pre →
  length bad ≠ 3%nat →
  display_each (pre ++ bad :: post) out
    = (Raise ValueError, out ++ (line_of <$> pre)).
Proof.
  intros Hlen Hbad. revert out.
  induction Hlen as [|cond rest Hc _ IH]; intros out; csimpl.
  - rewrite app_nil_r.
    by destruct bad as [|field [|op [|value [|extra cond]]]].
  - destruct cond as [|field [|op [|value [|extra cond]]]]; try done.
    rewrite IH. by rewrite <-app_assoc.
Qed.

(** X13. [display_simple_conditions] writes the heading and then, for each
    condition, its line, when every condition has three elements. At the
    first condition that has not, it raises [ValueError], having written
    the heading and the lines of the conditions before it. *)
Theorem display_simple_conditions_lines conditions out :
  (Forall (λ cond, length cond = 3%nat) conditions →
     display_simple_conditions conditions out
       = (Ok (), out ++ [Lit "##### Conditions"] :: (line_of <$> conditions)))
  ∧ (∀ pre bad post,
       conditions = pre ++ bad :: post →
       Forall (λ cond, length cond = 3%nat) pre →
       length bad ≠ 3%nat →
       display_simple_conditions conditions out
         = (Raise ValueError,
            out ++ [Lit "##### Conditions"] :: (line_of <$> pre))).
Proof.
  unfold display_simple_conditions. split.
  - intros Hlen. rewrite (display_each_ok _ _ Hlen). by rewrite <-app_assoc.
  - intros pre bad post -> Hlen Hbad.
    rewrite (display_each_bad _ _ _ _ Hlen Hbad). by rewrite <-app_assoc.
Qed.

Lemma evaluate_condition_true_length facts cond :
  evaluate_condition facts cond = Ok true → length cond = 3%nat.
Proof.
  unfold evaluate_condition.
  by destruct cond as [|field [|op [|value [|extra cond]]]].
Qed.

(** X14. The conditions of every rule of the fired list can be displayed:
    each of them has three elements, since it held, so that
    [display_simple_conditions] does not raise on a fired rule and writes
    the heading and one line for each of its conditions. *)
Theorem display_simple_conditions_of_fired facts rules a fired out :
  run_rules facts rules = Ok (a, fired) →
  Forall (λ r,
    display_simple_conditions (default [] (conditions r)) out
      = (Ok (), out ++ [Lit "##### Conditions"]
                    :: (line_of <$> default [] (conditions r)))) fired.
Proof.
  intros [_ ->]%run_rules_inv. rewrite sorted_perm.
  apply Forall_forall. intros r [Hr _]%list_elem_of_filter.
  unfold fires, rule_matches in Hr. apply all_true in Hr.
  assert (Forall (λ cond, length cond = 3%nat) (default [] (conditions r)))
    as Hlen.
  { eapply Forall_impl; [exact Hr|]. intros cond.
    apply evaluate_condition_true_length. }
  unfold display_simple_conditions. rewrite (display_each_ok _ _ Hlen).
  by rewrite <-app_assoc.
Qed.

(** ** Integers through the coercion *)

Lemma digits2_pos_size p : digits2_pos p = Pos.size p.
Proof. induction p; simpl; congruence. Qed.

Lemma iter_xO_mul p k : Zpos (Pos.iter xO p k) = Zpos p * 2 ^ Zpos k.
Proof.
  induction k as [|k IH] using Pos.peano_ind.
  - simpl. lia.
  - rewrite Pos.iter_succ, Pos2Z.inj_succ, Z.pow_succ_r by lia.
    rewrite Pos2Z.inj_xO, IH. lia.
Qed.

Lemma size_bounds p : 2 ^ (Zpos (Pos.size p) - 1) ≤ Zpos p < 2 ^ Zpos (Pos.size p).
Proof.
  split.
  - pose proof (Pos.size_le p) as H.
    apply Pos2Z.pos_le_pos in H. rewrite Pos2Z.inj_xO, Pos2Z.inj_pow in H.
    replace (Zpos (Pos.size p)) with (Z.succ (Zpos (Pos.size p) - 1)) in H by lia.
    rewrite Z.pow_succ_r in H by lia. lia.
  - pose proof (Pos.size_gt p) as H.
    apply Pos2Z.pos_lt_pos in H. by rewrite Pos2Z.inj_pow in H.
Qed.

Lemma binary_round_aux_exact s m e :
  Zpos (digits2_pos m) = 53 → -1074 ≤ e ≤ 971 →
  binary_round_aux prec emax s (Zpos m) e loc_Exact = S754_finite s m e.
Proof.
  intros Hd He. unfold binary_round_aux, shr_fexp, fexp, emin, prec, emax.
  cbn [Zdigits2]. rewrite Hd.
  replace (Z.max (53 + e - 53) (3 - 1024 - 53) - e) with 0 by lia.
  cbn [shr shr_record_of_loc shr_m loc_of_shr_record round_nearest_even].
  cbn [Zdigits2]. rewrite Hd.
  replace (Z.max (53 + e - 53) (3 - 1024 - 53) - e) with 0 by lia.
  cbn [shr shr_record_of_loc shr_m].
  destruct (e <=? 1024 - 53) eqn:E; [done|lia].
Qed.

Lemma binary_round_small s p :
  Zpos (Pos.size p) ≤ 53 →
  ∃ m, binary_round prec emax s p 0 = S754_finite s m (Zpos (Pos.size p) - 53)
       ∧ Zpos m = Zpos p * 2 ^ (53 - Zpos (Pos.size p)).
Proof.
  intros Hd. unfold binary_round, shl_align, fexp, emin, prec, emax.
  rewrite digits2_pos_size.
  replace (Z.max (Zpos (Pos.size p) + 0 - 53) (3 - 1024 - 53) - 0)
    with (Zpos (Pos.size p) - 53) by lia.
  replace (Z.max (Zpos (Pos.size p) + 0 - 53) (3 - 1024 - 53))
    with (Zpos (Pos.size p) - 53) by lia.
  destruct (Zpos (Pos.size p) - 53) as [|k|k] eqn:Hk; [| lia |].
  - exists p. split.
    + apply (binary_round_aux_exact s p 0); [|lia].
      rewrite digits2_pos_size. lia.
    + replace (53 - Zpos (Pos.size p)) with 0 by lia. lia.
  - exists (Pos.iter xO p k). split.
    + apply (binary_round_aux_exact s (Pos.iter xO p k) (Zneg k)); [|lia].
      rewrite digits2_pos_size.
      pose proof (size_bounds p) as [Hlo Hhi].
      pose proof (size_bounds (Pos.iter xO p k)) as [Hlo' Hhi'].
      rewrite iter_xO_mul in Hlo', Hhi'.
      assert (Zpos k = 53 - Zpos (Pos.size p)) as Hk' by lia.
      assert (2 ^ 52 ≤ Zpos p * 2 ^ Zpos k < 2 ^ 53) as [H1 H2].
      { assert (0 < 2 ^ Zpos k) by (apply Z.pow_pos_nonneg; lia).
        assert (2 ^ 52 = 2 ^ (Zpos (Pos.size p) - 1) * 2 ^ Zpos k) as ->
          by (rewrite <-Z.pow_add_r by lia; f_equal; lia).
        assert (2 ^ 53 = 2 ^ Zpos (Pos.size p) * 2 ^ Zpos k) as ->
          by (rewrite <-Z.pow_add_r by lia; f_equal; lia).
        split; [apply Z.mul_le_mono_nonneg_r; lia
               |apply Z.mul_lt_mono_pos_r; lia]. }
      destruct (Z.lt_trichotomy (Zpos (Pos.size (Pos.iter xO p k))) 53)
        as [Hlt|[Heq|Hgt]]; [|done|].
      * assert (2 ^ Zpos (Pos.size (Pos.iter xO p k)) ≤ 2 ^ 52)
          by (apply Z.pow_le_mono_r; lia). lia.
      * assert (2 ^ 53 ≤ 2 ^ (Zpos (Pos.size (Pos.iter xO p k)) - 1))
          by (apply Z.pow_le_mono_r; lia). lia.
    + rewrite iter_xO_mul. f_equal. f_equal. lia.
Qed.

Lemma size_le_53 p : Zpos p < 2 ^ 53 → Zpos (Pos.size p) ≤ 53.
Proof.
  intros Hp. pose proof (size_bounds p) as [Hlo _].
  destruct (Z.le_gt_cases (Zpos (Pos.size p)) 53) as [|Hgt]; [done|].
  assert (2 ^ 53 ≤ 2 ^ (Zpos (Pos.size p) - 1))
    by (apply Z.pow_le_mono_r; lia). lia.
Qed.

(** The double of an integer below 2^53 in magnitude. *)
Lemma float_of_int_small z :
  Z.abs z < 2 ^ 53 →
  ∃ f, float_of_int z = Ok f
    ∧ match z with
      | Z0 => f = S754_zero false
      | Zpos p => ∃ m, f = S754_finite false m (Zpos (Pos.size p) - 53)
                       ∧ Zpos m = Zpos p * 2 ^ (53 - Zpos (Pos.size p))
      | Zneg p => ∃ m, f = S754_finite true m (Zpos (Pos.size p) - 53)
                       ∧ Zpos m = Zpos p * 2 ^ (53 - Zpos (Pos.size p))
      end.
Proof.
  intros Hz. unfold float_of_int, binary_normalize.
  destruct z as [|p|p].
  - by eexists.
  - destruct (binary_round_small false p) as (m & -> & Hm);
      [apply size_le_53; lia|]. eexists. split; [done|]. by exists m.
  - destruct (binary_round_small true p) as (m & -> & Hm);
      [apply size_le_53; lia|]. eexists. split; [done|]. by exists m.
Qed.

Lemma compare_scaled p q mp mq :
  Zpos (Pos.size p) ≤ 53 → Zpos (Pos.size q) ≤ 53 →
  Zpos mp = Zpos p * 2 ^ (53 - Zpos (Pos.size p)) →
  Zpos mq = Zpos q * 2 ^ (53 - Zpos (Pos.size q)) →
  match Zpos (Pos.size p) - 53 ?= Zpos (Pos.size q) - 53 with
  | Lt => Lt
  | Gt => Gt
  | Eq => Pos.compare_cont Eq mp mq
  end = (p ?= q)%positive.
Proof.
  intros Hp Hq Hmp Hmq.
  pose proof (size_bounds p) as [Hplo Hphi].
  pose proof (size_bounds q) as [Hqlo Hqhi].
  destruct (Z.compare_spec (Zpos (Pos.size p) - 53) (Zpos (Pos.size q) - 53))
    as [Heq|Hlt|Hgt].
  - assert (Zpos (Pos.size p) = Zpos (Pos.size q)) as Hs by lia.
    rewrite Hs in Hmp.
    assert (0 < 2 ^ (53 - Zpos (Pos.size q))) by (apply Z.pow_pos_nonneg; lia).
    change (Pos.compare_cont Eq mp mq) with (Zpos mp ?= Zpos mq).
    rewrite Hmp, Hmq. change (p ?= q)%positive with (Zpos p ?= Zpos q).
    symmetry. apply Zmult_compare_compat_r. lia.
  - symmetry. apply Pos.compare_lt_iff.
    assert (2 ^ Zpos (Pos.size p) ≤ 2 ^ (Zpos (Pos.size q) - 1))
      by (apply Z.pow_le_mono_r; lia). lia.
  - symmetry. apply Pos.compare_gt_iff.
    assert (2 ^ Zpos (Pos.size q) ≤ 2 ^ (Zpos (Pos.size p) - 1))
      by (apply Z.pow_le_mono_r; lia). lia.
Qed.

Lemma float_of_int_compare x y fx fy :
  Z.abs x < 2 ^ 53 → Z.abs y < 2 ^ 53 →
  float_of_int x = Ok fx → float_of_int y = Ok fy →
  SFcompare fx fy = Some (x ?= y).
Proof.
  intros Hx Hy Hfx Hfy.
  destruct (float_of_int_small x Hx) as (fx' & Hfx' & Sx).
  destruct (float_of_int_small y Hy) as (fy' & Hfy' & Sy).
  assert (fx' = fx) as -> by congruence. assert (fy' = fy) as -> by congruence.
  destruct x as [|p|p], y as [|q|q];
    repeat match goal with
    | H : ∃ m, _ |- _ => destruct H as (? & -> & ?)
    | H : _ = S754_zero _ |- _ => rewrite H
    end; simpl; try done.
  - f_equal. apply compare_scaled; try done; apply size_le_53; lia.
  - f_equal.
    rewrite <-(compare_scaled p q x0 x); try done; try (apply size_le_53; lia).
    by destruct (Zpos (Pos.size p) - 53 ?= Zpos (Pos.size q) - 53).
Qed.

(** X15. Integers below 2^53 in magnitude go through the coercion without
    loss: a condition that compares an integer fact with an integer
    threshold, both in that range, holds exactly when the operator holds of
    the two integers. *)
Theorem evaluate_condition_integers_exact facts (f o : string) x y :
  facts !! f = Some (PInt x) → is_Some (OPS !! o) →
  Z.abs x < 2 ^ 53 → Z.abs y < 2 ^ 53 →
  evaluate_condition facts [PStr f; PStr o; PInt y]
    = Ok (holds_of (Some (x ?= y)) o).
Proof.
  intros Hf [cmp Hcmp] Hx Hy.
  destruct (float_of_int_small x Hx) as (a & Ha & _).
  destruct (float_of_int_small y Hy) as (b & Hb & _).
  rewrite (evaluate_condition_coerces _ _ _ _ _ _ Hf Hcmp). simpl.
  rewrite Ha, Hb. f_equal.
  rewrite (OPS_holds_of _ _ a b Hcmp).
  by rewrite (float_of_int_compare x y a b).
Qed.

(** Beyond that range the coercion rounds: 2^53 + 1 equals 2^53. *)
Example evaluate_condition_integers_rounded :
  evaluate_condition (<["n"%string := PInt (2 ^ 53 + 1)]> ∅)
    [PStr "n"; PStr "=="; PInt (2 ^ 53)] = Ok true.
Proof. by vm_compute. Qed.

(** ** Rule sets in descending order, and the default rule set *)

(** X16. On a rule set that is written in descending order of priority, as
    the default rule set is, the fired list is the rules that fire in the
    order of the rule set, and the decision is that of the first rule of
    the rule set that fires. *)
Theorem run_rules_on_sorted_rule_set facts rules :
  Forall (λ r, returns (rule_matches facts r)) rules →
  Sorted (desc priority_key) rules →
  run_rules facts rules
    = Ok (match filter (fires facts) rules with
          | [] => no_match_action
          | first :: _ => default no_action_action (action first)
          end, filter (fires facts) rules).
Proof.
  intros Hret Hs. rewrite (run_rules_fired _ _ Hret). simpl.
  by rewrite <-sorted_filter_comm, (sorted_desc_id _ _ Hs).
Qed.

(** X17. The decision badge fails with [TypeError] exactly when the action
    has a decision that is [None], a boolean or a number; an action without
    a decision gets the warning badge. *)
Theorem decision_badge_raises_iff action e :
  (decision_badge action = Raise e ↔
     e = TypeError
     ∧ ∃ v, action !! "decision"%string = Some v
            ∧ match v with
              | PNone | PBool _ | PInt _ | PFloat _ => True
              | _ => False
              end)
  ∧ (action !! "decision"%string = None → decision_badge action = Ok warning).
Proof.
  unfold decision_badge. split.
  - destruct (action !! "decision"%string) as [v|]; simpl.
    + split.
      * destruct v; simpl; try (intros [= <-]; split; [done|]; by eexists);
          repeat case_match; done.
      * intros (-> & v' & [= <-] & Hv). by destruct v.
    + split; [by vm_compute|]. by intros (_ & v & ? & _).
  - by intros ->.
Qed.

Lemma default_rules_return facts :
  Forall (λ r, returns (rule_matches facts r)) SCHOLARSHIP_RULES.
Proof.
  apply Forall_forall. intros r Hr. unfold SCHOLARSHIP_RULES in Hr.
  rewrite !elem_of_cons, elem_of_nil in Hr.
  destruct Hr as [->|[->|[->|[->|[->|[]]]]]];
    apply rule_matches_returns; simpl;
    repeat (apply Forall_cons; split;
            [by intros field op value [= <- <- <-]|]);
    by constructor.
Qed.

Lemma default_rules_sorted : Sorted (desc priority_key) SCHOLARSHIP_RULES.
Proof.
  unfold SCHOLARSHIP_RULES.
  repeat first [apply Sorted_nil | apply Sorted_cons
               | apply HdRel_nil | apply HdRel_cons];
    unfold desc, priority_key; simpl; lia.
Qed.

(** X18. On the default rule set every fact set gets a decision, whatever
    it holds or lacks: [run_rules] returns, the decision is one of
    [AWARD FULL], [AWARD PARTIAL], [REJECT] and [REVIEW], and the badge is
    the success badge for the awards, the error badge for [REJECT] and the
    warning badge for [REVIEW]. *)
Theorem default_rules_always_decide facts :
  ∃ a b,
    run_rules facts SCHOLARSHIP_RULES
      = Ok (a, filter (fires facts) SCHOLARSHIP_RULES)
    ∧ decision_badge a = Ok b
    ∧ ((a !! "decision"%string = Some (PStr "AWARD FULL") ∧ b = success)
       ∨ (a !! "decision"%string = Some (PStr "AWARD PARTIAL") ∧ b = success)
       ∨ (a !! "decision"%string = Some (PStr "REJECT") ∧ b = error)
       ∨ (a !! "decision"%string = Some (PStr "REVIEW") ∧ b = warning)).
Proof.
  rewrite (run_rules_fired _ _ (default_rules_return facts)). simpl.
  rewrite <-sorted_filter_comm, (sorted_desc_id _ _ default_rules_sorted).
  destruct (filter (fires facts) SCHOLARSHIP_RULES) as [|first rest] eqn:E.
  - exists no_match_action, error. split_and!; [done|by vm_compute|].
    right. right. left. by vm_compute.
  - assert (first ∈ SCHOLARSHIP_RULES) as Hin.
    { assert (first ∈ filter (fires facts) SCHOLARSHIP_RULES) as Hin
        by (rewrite E; by left).
      by apply list_elem_of_filter in Hin as [_ Hin]. }
    unfold SCHOLARSHIP_RULES in Hin.
    rewrite !elem_of_cons, elem_of_nil in Hin.
    destruct Hin as [->|[->|[->|[->|[->|[]]]]]]; simpl;
      eexists _, _; (split_and!; [reflexivity|by vm_compute|]).
    + left. by vm_compute.
    + right. right. left. by vm_compute.
    + right. right. left. by vm_compute.
    + right. left. by vm_compute.
    + right. right. right. by vm_compute.
Qed.

(** ** Concrete instances of the further properties *)

Lemma rule_matches_first_failure_witness :
  let rule := mkRule None None
                (Some [[PStr "age"; PStr ">="; PInt 18];
                       [PList []; PStr "<"; PInt 1]]) None in
  (Ok false : result bool) ≠ Ok true
  ∧ (rule_matches (applicant 380 7000 85 0) rule = Ok false ↔
     ∃ pre cond post,
       default [] (conditions rule) = pre ++ cond :: post
       ∧ Forall (λ c, evaluate_condition (applicant 380 7000 85 0) c = Ok true) pre
       ∧ evaluate_condition (applicant 380 7000 85 0) cond = Ok false).
Proof.
  intros rule.
  assert ((Ok false : result bool) ≠ Ok true) as Hr by discriminate.
  split; [exact Hr|].
  exact (rule_matches_first_failure (applicant 380 7000 85 0) rule (Ok false) Hr).
Defined.

Lemma run_rules_propagates_raise_witness :
  unhashable_rule ∈ sample_rules ++ [unhashable_rule; bare_rule]
  ∧ rule_matches (applicant 380 7000 85 0) unhashable_rule = Raise TypeError
  ∧ Forall (λ r, returns (rule_matches (applicant 380 7000 85 0) r))
      sample_rules
  ∧ run_rules (applicant 380 7000 85 0)
      (sample_rules ++ [unhashable_rule; bare_rule])
    = Raise TypeError.
Proof.
  assert (unhashable_rule ∈ sample_rules ++ [unhashable_rule; bare_rule])
    as H1 by (apply elem_of_app; right; left).
  assert (rule_matches (applicant 380 7000 85 0) unhashable_rule
            = Raise TypeError) as H2 by reflexivity.
  assert (Forall (λ r, returns (rule_matches (applicant 380 7000 85 0) r))
            sample_rules) as H3
    by (repeat (constructor; [by eexists; vm_compute|]); constructor).
  split_and!; [exact H1 | exact H2 | exact H3 |].
  exact (proj2 (run_rules_propagates_raise _ _ _ _ H1 H2)
           sample_rules [bare_rule] eq_refl H3).
Defined.

Lemma rule_matches_total_on_hashable_witness :
  let rule := mkRule None (Some 1)
                (Some [[PStr "cgpa"; PStr "~"; PNone]; [PInt 1; PInt 2];
                       [PStr "cgpa"; PStr ">="; PList []]]) None in
  Forall (λ cond, ∀ field op value, cond = [field; op; value] →
            hashable field = true ∧ hashable op = true)
         (default [] (conditions rule))
  ∧ ∃ b, rule_matches (applicant 380 7000 85 0) rule = Ok b.
Proof.
  intros rule.
  assert (Forall (λ cond, ∀ field op value, cond = [field; op; value] →
                    hashable field = true ∧ hashable op = true)
                 (default [] (conditions rule))) as Hh.
  { simpl.
    apply Forall_cons; split; [by intros field op value [= <- <- <-]|].
    apply Forall_cons; split; [by intros field op value [=]|].
    apply Forall_cons; split; [by intros field op value [= <- <- <-]|].
    by constructor. }
  split; [exact Hh|]. exact (rule_matches_total_on_hashable _ rule Hh).
Defined.


Lemma evaluate_condition_not_a_number_witness :
  let facts : gmap string pyval := <["cgpa"%string := PStr "n/a"]> ∅ in
  facts !! "cgpa"%string = Some (PStr "n/a")
  ∧ ascii_text (PStr "n/a") ∧ ascii_text (PInt 3)
  ∧ (∀ a, float (PStr "n/a") ≠ Ok a)
  ∧ evaluate_condition facts [PStr "cgpa"; PStr "!="; PInt 3] = Ok false.
Proof.
  intros facts.
  assert (facts !! "cgpa"%string = Some (PStr "n/a")) as H1 by (by vm_compute).
  assert (ascii_text (PStr "n/a")) as Hx
    by (simpl; repeat constructor; by vm_compute).
  assert (ascii_text (PInt 3)) as Hv by exact I.
  assert (∀ a, float (PStr "n/a") ≠ Ok a) as H2 by (intros a; by vm_compute).
  split_and!; [exact H1 | exact Hx | exact Hv | exact H2 |].
  exact (evaluate_condition_not_a_number facts "cgpa" "!=" (PInt 3) (PStr "n/a")
           H1 Hx Hv (or_introl H2)).
Defined.

Lemma evaluate_condition_true_iff_witness :
  let facts : gmap string pyval := <["cgpa"%string := PStr " 3.8 "]> ∅ in
  let cond := [PStr "cgpa"; PStr ">="; PStr "3.7"] in
  map_Forall (λ _, ascii_text) facts
  ∧ Forall ascii_text cond
  ∧ evaluate_condition facts cond = Ok true
  ∧ ∃ (f o : string) value x cmp a b,
      cond = [PStr f; PStr o; value]
      ∧ facts !! f = Some x ∧ OPS !! o = Some cmp
      ∧ float x = Ok a ∧ float value = Ok b ∧ cmp a b = true.
Proof.
  intros facts cond.
  assert (map_Forall (λ _, ascii_text) facts) as H1.
  { apply map_Forall_insert_2; [|apply map_Forall_empty].
    simpl; repeat constructor; by vm_compute. }
  assert (Forall ascii_text cond) as H2.
  { repeat (apply Forall_cons; split;
            [simpl; repeat constructor; by vm_compute|]).
    by constructor. }
  assert (evaluate_condition facts cond = Ok true) as H3 by (by vm_compute).
  split_and!; [exact H1 | exact H2 | exact H3 |].
  exact (proj1 (evaluate_condition_true_iff facts cond H1 H2) H3).
Defined.

Lemma run_rules_winner_witness :
  Forall (λ x, returns (rule_matches ∅ x))
    ([low_rule; plain_rule] ++ high_rule :: [zero_rule])
  ∧ fires ∅ high_rule
  ∧ Forall (λ x, fires ∅ x → priority_key x < priority_key high_rule)
      [low_rule; plain_rule]
  ∧ Forall (λ x, fires ∅ x → priority_key x ≤ priority_key high_rule) [zero_rule]
  ∧ ∃ rest,
      run_rules ∅ ([low_rule; plain_rule] ++ high_rule :: [zero_rule])
        = Ok (default no_action_action (action high_rule), high_rule :: rest).
Proof.
  assert (Forall (λ x, returns (rule_matches ∅ x))
            ([low_rule; plain_rule] ++ high_rule :: [zero_rule])) as H1
    by (apply (bool_decide_unpack _); vm_compute; exact I).
  assert (fires ∅ high_rule) as H2 by reflexivity.
  assert (Forall (λ x, fires ∅ x → priority_key x < priority_key high_rule)
            [low_rule; plain_rule]) as H3
    by (repeat constructor; unfold priority_key; simpl; lia).
  assert (Forall (λ x, fires ∅ x → priority_key x ≤ priority_key high_rule)
            [zero_rule]) as H4
    by (repeat constructor; unfold priority_key; simpl; lia).
  split_and!; [exact H1 | exact H2 | exact H3 | exact H4 |].
  exact (run_rules_winner ∅ [low_rule; plain_rule] high_rule [zero_rule]
           H1 H2 H3 H4).
Defined.



Lemma run_rules_idempotent_witness :
  run_rules ∅ [low_rule; plain_rule; high_rule]
    = Ok (no_action_action, [high_rule; plain_rule; low_rule])
  ∧ run_rules ∅ [high_rule; plain_rule; low_rule]
    = Ok (no_action_action, [high_rule; plain_rule; low_rule]).
Proof.
  assert (run_rules ∅ [low_rule; plain_rule; high_rule]
            = Ok (no_action_action, [high_rule; plain_rule; low_rule])) as H1
    by (by vm_compute).
  split; [exact H1|]. exact (run_rules_idempotent _ _ _ _ H1).
Defined.

Lemma run_rules_facts_frame_witness :
  let rules := [mkRule None None (Some [[PStr "cgpa"; PStr ">="; PInt 3]]) None] in
  let facts := applicant 380 7000 85 0 in
  let facts' := <["age"%string := PInt 20]> (applicant 380 7000 85 0) in
  (∀ r cond (f : string) op value,
     r ∈ rules → cond ∈ default [] (conditions r) →
     cond = [PStr f; op; value] → facts !! f = facts' !! f)
  ∧ run_rules facts rules = run_rules facts' rules.
Proof.
  intros rules facts facts'.
  assert (∀ r cond (f : string) op value,
            r ∈ rules → cond ∈ default [] (conditions r) →
            cond = [PStr f; op; value] → facts !! f = facts' !! f) as H1.
  { intros r cond f op value ->%list_elem_of_singleton.
    simpl. intros ->%list_elem_of_singleton [= <- _ _]. by vm_compute. }
  split; [exact H1|]. exact (run_rules_facts_frame facts facts' rules H1).
Defined.

Lemma display_simple_conditions_lines_witness :
  let good := [PStr "cgpa"; PStr ">="; PInt 3] in
  let bad := [PStr "cgpa"; PStr ">="] in
  Forall (λ cond, length cond = 3%nat) [good]
  ∧ length bad ≠ 3%nat
  ∧ display_simple_conditions ([good] ++ bad :: [good]) []
    = (Raise ValueError, [] ++ [Lit "##### Conditions"] :: (line_of <$> [good])).
Proof.
  intros good bad.
  assert (Forall (λ cond, length cond = 3%nat) [good]) as H1
    by (by repeat constructor).
  assert (length bad ≠ 3%nat) as H2 by (simpl; lia).
  split_and!; [exact H1 | exact H2 |].
  exact (proj2 (display_simple_conditions_lines ([good] ++ bad :: [good]) [])
           [good] bad [good] eq_refl H1 H2).
Defined.

Lemma display_simple_conditions_of_fired_witness :
  run_rules (applicant 380 7000 85 0) sample_rules
    = Ok (mk_action "AWARD FULL" "best", [best_rule; merit_rule; need_rule])
  ∧ Forall (λ r,
      display_simple_conditions (default [] (conditions r)) []
        = (Ok (), [] ++ [Lit "##### Conditions"]
                      :: (line_of <$> default [] (conditions r))))
      [best_rule; merit_rule; need_rule]
  ∧ display_simple_conditions (default [] (conditions merit_rule)) []
    = (Ok (),
       [ [Lit "##### Conditions"];
         [Lit "* `"; Fmt (PStr "cgpa"); Lit "` **"; Fmt (PStr ">=");
          Lit "** `"; Fmt (PInt 3); Lit "`"];
         [Lit "* `"; Fmt (PStr "family_income"); Lit "` **"; Fmt (PStr "<=");
          Lit "** `"; Fmt (PInt 8000); Lit "`"] ]).
Proof.
  assert (run_rules (applicant 380 7000 85 0) sample_rules
            = Ok (mk_action "AWARD FULL" "best",
                  [best_rule; merit_rule; need_rule])) as H1
    by (by vm_compute).
  pose proof (display_simple_conditions_of_fired _ _ _ _ [] H1) as H2.
  split_and!; [exact H1 | exact H2 |].
  apply Forall_cons in H2 as [_ H2]. apply Forall_cons in H2 as [H2 _].
  exact H2.
Defined.

Lemma evaluate_condition_integers_exact_witness :
  let facts : gmap string pyval := <["family_income"%string := PInt 7000]> ∅ in
  facts !! "family_income"%string = Some (PInt 7000)
  ∧ is_Some (OPS !! "<="%string)
  ∧ Z.abs 7000 < 2 ^ 53 ∧ Z.abs 8000 < 2 ^ 53
  ∧ evaluate_condition facts [PStr "family_income"; PStr "<="; PInt 8000]
    = Ok (holds_of (Some (7000 ?= 8000)) "<=").
Proof.
  intros facts.
  assert (facts !! "family_income"%string = Some (PInt 7000)) as H1
    by (by vm_compute).
  assert (is_Some (OPS !! "<="%string)) as H2 by (vm_compute; by eexists).
  assert (Z.abs 7000 < 2 ^ 53) as H3 by (by vm_compute).
  assert (Z.abs 8000 < 2 ^ 53) as H4 by (by vm_compute).
  split_and!; [exact H1 | exact H2 | exact H3 | exact H4 |].
  exact (evaluate_condition_integers_exact facts "family_income" "<="
           7000 8000 H1 H2 H3 H4).
Defined.

Lemma run_rules_on_sorted_rule_set_witness :
  Forall (λ r, returns (rule_matches (applicant 380 7000 85 0) r)) SCHOLARSHIP_RULES
  ∧ Sorted (desc priority_key) SCHOLARSHIP_RULES
  ∧ run_rules (applicant 380 7000 85 0) SCHOLARSHIP_RULES
    = Ok (match filter (fires (applicant 380 7000 85 0)) SCHOLARSHIP_RULES with
          | [] => no_match_action
          | first :: _ => default no_action_action (action first)
          end, filter (fires (applicant 380 7000 85 0)) SCHOLARSHIP_RULES).
Proof.
  pose proof (default_rules_return (applicant 380 7000 85 0)) as H1.
  pose proof default_rules_sorted as H2.
  split_and!; [exact H1 | exact H2 |].
  exact (run_rules_on_sorted_rule_set _ _ H1 H2).
Defined.
